(** * Core Foundation byte buffers (core-foundation/src/data.rs)

    A shallow embedding of the [CFData] / [CFMutableData] wrappers.  The
    foreign Core Foundation runtime is modelled as a store of byte-buffer
    objects; the Rust side as a table of handles, each owning one reference
    to an object.  Every operation runs in a small state monad whose
    outcomes distinguish a normal return, the fatal halt of the foreign
    runtime, a Rust panic, undefined behaviour at the FFI boundary, and
    programs the Rust compiler refuses (use of a moved value, a method the
    type lacks). *)

From Stdlib Require Import Lia.
From stdpp Require Import base list.

(** ** Data model *)

(** Rust's [u8]. *)
Abbreviation u8 := Byte.byte.

(** The two wrapper types declared with [declare_TCFType!]. *)
Inductive kind := KCFData | KCFMutableData.

Definition kind_eqb (a b : kind) : bool :=
  match a, b with
  | KCFData, KCFData | KCFMutableData, KCFMutableData => true
  | _, _ => false
  end.

(** What became of a handle value: still owned by the program, passed to
    [mem::forget], or destroyed (its [Drop] ran). *)
Inductive hstatus := Live | Forgotten | Dropped.

#[global] Instance kind_eq_dec : EqDecision kind.
Proof. solve_decision. Defined.

#[global] Instance hstatus_eq_dec : EqDecision hstatus.
Proof. solve_decision. Defined.

(** A foreign [__CFData] object: [storage] is the memory behind the byte
    pointer (bytes past [cf_len] may be left over from a truncation),
    [cf_len] what [CFDataGetLength] reports, [max_capacity] the bound given
    at creation (0: unbounded), and the retain count (0: freed). *)
Record CFDataObj := mkCFData {
  storage : list u8;
  cf_len : nat;
  max_capacity : nat;
  is_mutable : bool;
  retain_count : nat
}.

(** A Rust value of type [CFData] or [CFMutableData]: the tuple struct
    holding the foreign reference [self.0]. *)
Record handle := mkHandle {
  hkind : kind;
  href : nat;
  hstat : hstatus
}.

(** The foreign object store, the handle values of the program, and the
    trace of releases performed by the handles' destructors
    (handle, object). *)
Record state := mkState {
  objs : list CFDataObj;
  handles : list handle;
  releases : list (nat * nat)
}.

Definition init : state := mkState [] [] [].

Inductive res (A : Type) : Type :=
| Ok (st : state) (a : A)
| Fatal
| Panic
| Undefined
| Rejected.
Arguments Ok {A} st a.
Arguments Fatal {A}.
Arguments Panic {A}.
Arguments Undefined {A}.
Arguments Rejected {A}.

Definition M (A : Type) : Type := state -> res A.

Definition ret {A} (a : A) : M A := fun st => Ok st a.

Definition bind {A B} (m : M A) (k : A -> M B) : M B := fun st =>
  match m st with
  | Ok st' a => k a st'
  | Fatal => Fatal
  | Panic => Panic
  | Undefined => Undefined
  | Rejected => Rejected
  end.

Notation "'let*' x ':=' c 'in' k" := (bind c (fun x => k))
  (at level 200, x name, c at level 100, k at level 200).

Definition fatal {A} : M A := fun _ => Fatal.
Definition panic {A} : M A := fun _ => Panic.
Definition undefined {A} : M A := fun _ => Undefined.
Definition rejected {A} : M A := fun _ => Rejected.

(** ** The foreign runtime (Core Foundation, outside this repository)

    The contract of the capability set listed in the spec's section on
    external interfaces, with Core Foundation's documented semantics. *)
Module CF.

Definition lookup_obj (r : nat) : M CFDataObj := fun st =>
  match objs st !! r with
  | Some o => if 0 <? retain_count o then Ok st o else Undefined
  | None => Undefined
  end.

Definition store_obj (r : nat) (o : CFDataObj) : M unit := fun st =>
  Ok (mkState (<[r:=o]> (objs st)) (handles st) (releases st)) tt.

Definition alloc_obj (o : CFDataObj) : M nat := fun st =>
  Ok (mkState (objs st ++ [o]) (handles st) (releases st)) (length (objs st)).

(** The bytes of the buffer: the first [cf_len] bytes of its storage. *)
Definition contents (o : CFDataObj) : list u8 := firstn (cf_len o) (storage o).

Definition within_capacity (o : CFDataObj) (n : nat) : bool :=
  (max_capacity o =? 0) || (n <=? max_capacity o).

(** [CFDataCreate(alloc, bytes, length)]: copies [length] bytes read from
    the pointer into a new immutable object, returned with retain count 1. *)
Definition CFDataCreate (bytes : list u8) (len : nat) : M nat :=
  if len <=? length bytes
  then alloc_obj (mkCFData (firstn len bytes) len len false 1)
  else undefined.

(** [CFDataCreateMutable(alloc, capacity)]: a new empty growable object. *)
Definition CFDataCreateMutable (capacity : nat) : M nat :=
  alloc_obj (mkCFData [] 0 capacity true 1).

Definition CFDataGetLength (r : nat) : M nat :=
  let* o := lookup_obj r in ret (cf_len o).

(** The byte pointers, modelled by the memory region they point into. *)
Definition CFDataGetBytePtr (r : nat) : M (list u8) :=
  let* o := lookup_obj r in ret (storage o).

Definition CFDataGetMutableBytePtr (r : nat) : M (list u8) :=
  let* o := lookup_obj r in
  if is_mutable o then ret (storage o) else undefined.

(** [CFDataSetLength]: truncates (the bytes past the new length stay in
    storage) or zero-extends; growing past a nonzero maximum capacity is the
    fatal capacity condition. *)
Definition CFDataSetLength (r : nat) (n : nat) : M unit :=
  let* o := lookup_obj r in
  if negb (is_mutable o) then undefined
  else if negb (within_capacity o n) then fatal
  else if n <=? cf_len o
  then store_obj r (mkCFData (storage o) n (max_capacity o) true (retain_count o))
  else store_obj r (mkCFData (contents o ++ repeat Byte.x00 (n - cf_len o)) n
                             (max_capacity o) true (retain_count o)).

(** [CFDataReplaceBytes(data, {loc, len}, newBytes, newLength)]. *)
Definition CFDataReplaceBytes (r loc len : nat) (new_bytes : list u8)
    (new_length : nat) : M unit :=
  let* o := lookup_obj r in
  if negb (is_mutable o) then undefined
  else if negb (loc + len <=? cf_len o) then undefined
  else if negb (new_length <=? length new_bytes) then undefined
  else
    let c := contents o in
    let c' := firstn loc c ++ firstn new_length new_bytes ++ skipn (loc + len) c in
    if negb (within_capacity o (length c')) then fatal
    else store_obj r (mkCFData c' (length c') (max_capacity o) true (retain_count o)).

Definition CFRetain (r : nat) : M unit :=
  let* o := lookup_obj r in
  store_obj r (mkCFData (storage o) (cf_len o) (max_capacity o) (is_mutable o)
                        (S (retain_count o))).

Definition CFRelease (r : nat) : M unit :=
  let* o := lookup_obj r in
  store_obj r (mkCFData (storage o) (cf_len o) (max_capacity o) (is_mutable o)
                        (pred (retain_count o))).

End CF.

(** [slice::from_raw_parts(ptr, len)]: reading past the region is undefined. *)
Definition slice_from_raw_parts (p : list u8) (len : nat) : M (list u8) :=
  if len <=? length p then ret (firstn len p) else undefined.

(** [isize::MAX] on a 64-bit target: [CFIndex::max_value()]. *)
Definition isize_MAX : Z := 9223372036854775807.

(** [CFIndexConvertible::to_CFIndex] for [usize] (core-foundation/src/base.rs):
    [if self > (CFIndex::max_value() as usize) { panic!("value out of range") }]
    and otherwise [self as CFIndex].  The lengths of Rust slices never
    exceed [isize::MAX], so the calls on [buffer.len()] and [bytes.len()] in
    [from_buffer] and [extend_from_slice] always return their argument and
    are written as the argument itself there. *)
Definition to_CFIndex (n : nat) : M nat :=
  if (Z.of_nat n <=? isize_MAX)%Z then ret n else panic.

(** ** Rust values *)

Definition is_live (hd : handle) : bool :=
  match hstat hd with Live => true | _ => false end.

Definition handle_of (self : nat) : M handle := fun st =>
  match handles st !! self with
  | Some hd => Ok st hd
  | None => Rejected
  end.

(** Using [self] (by reference or by value) as a value of type [k]: the
    compiler refuses a moved value or a value of the other type. *)
Definition borrow (k : kind) (self : nat) : M nat :=
  let* hd := handle_of self in
  if kind_eqb (hkind hd) k && is_live hd then ret (href hd) else rejected.

Definition set_status (self : nat) (s : hstatus) : M unit := fun st =>
  Ok (mkState (objs st)
              (match handles st !! self with
               | Some hd => <[self:=mkHandle (hkind hd) (href hd) s]> (handles st)
               | None => handles st
               end)
              (releases st)) tt.

(** Building the tuple struct [CFData(r)] / [CFMutableData(r)]. *)
Definition new_handle (k : kind) (r : nat) : M nat := fun st =>
  Ok (mkState (objs st) (handles st ++ [mkHandle k r Live]) (releases st))
     (length (handles st)).

Definition log_release (self r : nat) : M unit := fun st =>
  Ok (mkState (objs st) (handles st) (releases st ++ [(self, r)])) tt.

(** [mem::forget(self)]: the value is moved away and its destructor never runs. *)
Definition mem_forget (self : nat) : M unit := set_status self Forgotten.

(** [TCFType::wrap_under_create_rule]: takes over the +1 count the Create
    call returned, without retaining. *)
Definition wrap_under_create_rule (k : kind) (r : nat) : M nat := new_handle k r.

(** ** [impl CFData] *)
Module CFData.

Definition len (self : nat) : M nat :=
  let* r := borrow KCFData self in CF.CFDataGetLength r.

Definition from_buffer (buffer : list u8) : M nat :=
  let* data_ref := CF.CFDataCreate buffer (length buffer) in
  wrap_under_create_rule KCFData data_ref.

Definition bytes (self : nat) : M (list u8) :=
  let* r := borrow KCFData self in
  let* p := CF.CFDataGetBytePtr r in
  let* n := len self in
  slice_from_raw_parts p n.

(** [impl Deref for CFData]. *)
Definition deref (self : nat) : M (list u8) := bytes self.

End CFData.

(** ** [impl CFMutableData] *)
Module CFMutableData.

Definition with_maximum_capacity (maximum_capacity : nat) : M nat :=
  let* capacity := to_CFIndex maximum_capacity in
  let* data_ref := CF.CFDataCreateMutable capacity in
  wrap_under_create_rule KCFMutableData data_ref.

Definition new : M nat := with_maximum_capacity 0.

Definition len (self : nat) : M nat :=
  let* r := borrow KCFMutableData self in CF.CFDataGetLength r.

Definition bytes (self : nat) : M (list u8) :=
  let* r := borrow KCFMutableData self in
  let* p := CF.CFDataGetBytePtr r in
  let* n := len self in
  slice_from_raw_parts p n.

Definition bytes_mut (self : nat) : M (list u8) :=
  let* r := borrow KCFMutableData self in
  let* p := CF.CFDataGetMutableBytePtr r in
  let* n := len self in
  slice_from_raw_parts p n.

Definition extend_from_slice (self : nat) (bytes : list u8) : M unit :=
  let* r := borrow KCFMutableData self in
  let* location := len self in
  CF.CFDataReplaceBytes r location 0 bytes (length bytes).

Definition set_len (self : nat) (len : nat) : M unit :=
  let* r := borrow KCFMutableData self in
  let* n := to_CFIndex len in
  CF.CFDataSetLength r n.

(** [into_immutable(self)]: [let reference = self.0; mem::forget(self);
    CFData(reference)]. *)
Definition into_immutable (self : nat) : M nat :=
  let* reference := borrow KCFMutableData self in
  let* _ := mem_forget self in
  new_handle KCFData reference.

(** [impl Deref] / [impl DerefMut for CFMutableData]. *)
Definition deref (self : nat) : M (list u8) := bytes self.
Definition deref_mut (self : nat) : M (list u8) := bytes_mut self.

End CFMutableData.

(** ** [impl_TCFType!] (core-foundation/src/base.rs)

    Modelled from the spec: the macro [impl_TCFType!] lives in base.rs,
    which is not among the sources.  Following the spec ("the source marks
    the mutable variant as able to be duplicated purely as an artifact of
    deriving generic wrapper behavior uniformly across both variants"), it
    gives both types a [Clone] that retains the foreign object and wraps the
    same reference again, and a [Drop] that releases the object once. *)
Module TCFType.

Definition clone (self : nat) : M nat :=
  let* hd := handle_of self in
  let* r := borrow (hkind hd) self in
  let* _ := CF.CFRetain r in
  new_handle (hkind hd) r.

Definition drop (self : nat) : M unit :=
  let* hd := handle_of self in
  let* r := borrow (hkind hd) self in
  let* _ := CF.CFRelease r in
  let* _ := set_status self Dropped in
  log_release self r.

End TCFType.

(** ** Client programs

    A program is a sequence of calls on handle values, named by their
    position in the handle table. *)
Inductive val := VUnit | VLen (n : nat) | VBytes (b : list u8) | VHandle (h : nat).

Inductive op :=
| OFromBuffer (b : list u8)
| ODataLen (h : nat)
| ODataBytes (h : nat)
| ODataDeref (h : nat)
| ONew
| OWithMaxCap (n : nat)
| OMutLen (h : nat)
| OMutBytes (h : nat)
| OMutDeref (h : nat)
| OBytesMut (h : nat)
| ODerefMut (h : nat)
| OExtend (h : nat) (b : list u8)
| OSetLen (h : nat) (n : nat)
| OIntoImmutable (h : nat)
| OClone (h : nat)
| ODrop (h : nat).

Definition exec (o : op) : M val :=
  match o with
  | OFromBuffer b => let* h := CFData.from_buffer b in ret (VHandle h)
  | ODataLen h => let* n := CFData.len h in ret (VLen n)
  | ODataBytes h => let* b := CFData.bytes h in ret (VBytes b)
  | ODataDeref h => let* b := CFData.deref h in ret (VBytes b)
  | ONew => let* h := CFMutableData.new in ret (VHandle h)
  | OWithMaxCap n => let* h := CFMutableData.with_maximum_capacity n in ret (VHandle h)
  | OMutLen h => let* n := CFMutableData.len h in ret (VLen n)
  | OMutBytes h => let* b := CFMutableData.bytes h in ret (VBytes b)
  | OMutDeref h => let* b := CFMutableData.deref h in ret (VBytes b)
  | OBytesMut h => let* b := CFMutableData.bytes_mut h in ret (VBytes b)
  | ODerefMut h => let* b := CFMutableData.deref_mut h in ret (VBytes b)
  | OExtend h b => let* _ := CFMutableData.extend_from_slice h b in ret VUnit
  | OSetLen h n => let* _ := CFMutableData.set_len h n in ret VUnit
  | OIntoImmutable h => let* h' := CFMutableData.into_immutable h in ret (VHandle h')
  | OClone h => let* h' := TCFType.clone h in ret (VHandle h')
  | ODrop h => let* _ := TCFType.drop h in ret VUnit
  end.

Fixpoint run (ps : list op) : M (list val) :=
  match ps with
  | [] => ret []
  | p :: ps' => let* v := exec p in let* vs := run ps' in ret (v :: vs)
  end.

(** End of the scope: the destructors of the values still owned run, the
    last declared first. *)
Fixpoint drop_live (n : nat) : M unit :=
  match n with
  | 0 => ret tt
  | S n' =>
      let* hd := handle_of n' in
      let* _ := (if is_live hd then TCFType.drop n' else ret tt) in
      drop_live n'
  end.

Definition end_scope : M unit := fun st => drop_live (length (handles st)) st.

(** The handle an operation acts on. *)
Definition op_subject (o : op) : option nat :=
  match o with
  | OFromBuffer _ | ONew | OWithMaxCap _ => None
  | ODataLen h | ODataBytes h | ODataDeref h | OMutLen h | OMutBytes h
  | OMutDeref h | OBytesMut h | ODerefMut h | OExtend h _ | OSetLen h _
  | OIntoImmutable h | OClone h | ODrop h => Some h
  end.

Definition count_releases (tr : list (nat * nat)) (h : nat) : nat :=
  length (List.filter (fun e => fst e =? h) tr).

(** Whether handle [hd] still owns a reference to object [r]. *)
Definition contrib (hd : handle) (r : nat) : nat :=
  if is_live hd && (href hd =? r) then 1 else 0.

(** Number of handle values still owned that refer to object [r]. *)
Fixpoint live_refs (hs : list handle) (r : nat) : nat :=
  match hs with
  | [] => 0
  | hd :: hs' => contrib hd r + live_refs hs' r
  end.

(** How many releases handle [i]'s destructor has performed so far,
    according to its status. *)
Definition released_expected (hs : list handle) (i : nat) : nat :=
  match hs !! i with
  | Some hd => match hstat hd with Dropped => 1 | _ => 0 end
  | None => 0
  end.

Definition outcome_vals {A} (x : res A) : option A :=
  match x with Ok _ a => Some a | _ => None end.

(** ** Well-formed states

    The invariant every reachable state satisfies: each owned handle refers
    to an existing object (a mutable one for [CFMutableData]), the length
    never exceeds the storage, every retain count is the number of owned
    handles on the object, and each handle's destructor released exactly
    once if it ran and never otherwise. *)
Record wf (st : state) : Prop := {
  wf_live : forall i hd, handles st !! i = Some hd -> hstat hd = Live ->
    exists o, objs st !! href hd = Some o /\
              (hkind hd = KCFMutableData -> is_mutable o = true);
  wf_len : forall r o, objs st !! r = Some o -> cf_len o <= length (storage o);
  wf_rc : forall r o, objs st !! r = Some o -> retain_count o = live_refs (handles st) r;
  wf_rel : forall i, count_releases (releases st) i = released_expected (handles st) i
}.

(** The handle table after the destructors of handles [0 .. n-1] ran. *)
Definition dropped_below (n j : nat) (hd : handle) : handle :=
  if (j <? n) && is_live hd then mkHandle (hkind hd) (href hd) Dropped else hd.

(** ** Which handles were passed to [mem::forget] *)

Definition forgotten (hs : list handle) (i : nat) : bool :=
  match hs !! i with
  | Some hd => match hstat hd with Forgotten => true | _ => false end
  | None => false
  end.

Definition into_immutable_of (o : op) (i : nat) : bool :=
  match o with OIntoImmutable h => h =? i | _ => false end.

Definition final_state {A} (x : res A) : state :=
  match x with Ok st _ => st | _ => init end.

Definition final_value {A} (x : res A) (d : A) : A :=
  match x with Ok _ a => a | _ => d end.

Definition c2_prog : list op :=
  [ONew; OExtend 0 [Byte.x01]; OClone 0; OIntoImmutable 0; ODataLen 2;
   OFromBuffer [Byte.x02]; ODrop 3].

(** ** Reachable states *)

Definition reachable (st : state) : Prop := exists ps vs, run ps init = Ok st vs.

Definition c1_prog : list op :=
  [ONew; OClone 0; OExtend 1 [Byte.x01]; OBytesMut 0; OBytesMut 1].

Definition c3_prog : list op :=
  [ONew; OExtend 0 [Byte.x07; Byte.x08]; OSetLen 0 3].

Definition c6_prog : list op := [ONew; OExtend 0 [Byte.x01; Byte.x02; Byte.x03]].

Definition c7_prog : list op :=
  [ONew; OClone 0; OIntoImmutable 0; OExtend 1 [Byte.x05; Byte.x06]].

Definition c8_prog : list op :=
  [ONew; OExtend 0 [Byte.x01; Byte.x02; Byte.x03]; OSetLen 0 1].

Fixpoint total_len (bs : list (list u8)) : nat :=
  match bs with [] => 0 | b :: bs' => length b + total_len bs' end.

Definition c9_bytes : list (list u8) := [[Byte.x01; Byte.x02]; [Byte.x03]].

Definition c5_prog : list op := [ONew; OExtend 0 [Byte.x0a]].

Definition is_read_op (o : op) : bool :=
  match o with
  | ODataLen _ | ODataBytes _ | ODataDeref _
  | OMutLen _ | OMutBytes _ | OMutDeref _ => true
  | _ => false
  end.

Definition c10_prog : list op := [ONew; OExtend 0 [Byte.x01; Byte.x02]; OIntoImmutable 0].

(** ** Further invariants of the handle table and the foreign objects *)

(** A buffer's length stays within its maximum capacity (0: unbounded). *)
Definition obj_cap_ok (o : CFDataObj) : Prop :=
  max_capacity o = 0 \/ cf_len o <= max_capacity o.

Definition cap_ok (os : list CFDataObj) : Prop :=
  forall r o, os !! r = Some o -> obj_cap_ok o.

(** From [os] to [os']: every immutable object kept its bytes and length. *)
Definition frozen (os os' : list CFDataObj) : Prop :=
  forall r o, os !! r = Some o -> is_mutable o = false ->
    exists o', os' !! r = Some o' /\ storage o' = storage o /\
               cf_len o' = cf_len o /\ is_mutable o' = false.

(** No two owned handles refer to the same foreign object. *)
Definition exclusive (hs : list handle) : Prop :=
  forall i j hi hj, i <> j -> hs !! i = Some hi -> hs !! j = Some hj ->
    hstat hi = Live -> hstat hj = Live -> href hi <> href hj.

Definition is_clone (o : op) : bool :=
  match o with OClone _ => true | _ => false end.

(** From [hs] to [hs']: every handle value kept its type and its reference
    (only its ownership status may change). *)
Definition refs_kept (hs hs' : list handle) : Prop :=
  forall i hd, hs !! i = Some hd ->
    exists hd', hs' !! i = Some hd' /\ hkind hd' = hkind hd /\ href hd' = href hd.

(** From [st] to [st']: only object [r] (which was [o]) changed, and it
    kept its retain count and maximum capacity; the handle values and the
    release log are unchanged. *)
Definition frame_only (st st' : state) (r : nat) (o : CFDataObj) : Prop :=
  handles st' = handles st /\ releases st' = releases st /\
  (forall r', r' <> r -> objs st' !! r' = objs st !! r') /\
  exists o', objs st' !! r = Some o' /\ retain_count o' = retain_count o /\
             max_capacity o' = max_capacity o.

(** No owned [CFMutableData] refers to object [r]. *)
Definition no_mut_on (hs : list handle) (r : nat) : Prop :=
  forall i hd, hs !! i = Some hd -> hstat hd = Live -> hkind hd = KCFMutableData ->
    href hd <> r.

(** From [os] to [os']: object [r] kept its bytes and length. *)
Definition same_bytes (os os' : list CFDataObj) (r : nat) : Prop :=
  forall o, os !! r = Some o ->
    exists o', os' !! r = Some o' /\ storage o' = storage o /\ cf_len o' = cf_len o.

(** Programs the properties below are exercised on. *)
Definition one_byte_prog : list op := [ONew; OExtend 0 [Byte.x01]].
Definition three_bytes_prog : list op := [ONew; OExtend 0 [Byte.x01; Byte.x02; Byte.x03]].
Definition bounded_prog : list op := [OWithMaxCap 3; OExtend 0 [Byte.x01; Byte.x02; Byte.x03]].
Definition bounded_later : list op := [OExtend 0 [Byte.x01]; OSetLen 0 2].
Definition frozen_later : list op := [ONew; OExtend 1 [Byte.x03]; OClone 0; ODrop 2].
Definition no_clone_prog : list op := [ONew; OIntoImmutable 0; OFromBuffer [Byte.x05]; ONew].
Definition after_conversion : list op := [ONew; OExtend 2 [Byte.x09]; OSetLen 2 0].

(** From [os] to [os']: every object kept its maximum capacity. *)
Definition caps_kept (os os' : list CFDataObj) : Prop :=
  forall r o, os !! r = Some o ->
    exists o', os' !! r = Some o' /\ max_capacity o' = max_capacity o.

Example ex_spec_example :
  outcome_vals (run [OWithMaxCap 0; OExtend 0 [Byte.x01; Byte.x02; Byte.x03];
                     OSetLen 0 5; OMutBytes 0; OMutLen 0] init)
  = Some [VHandle 0; VUnit; VUnit;
          VBytes [Byte.x01; Byte.x02; Byte.x03; Byte.x00; Byte.x00]; VLen 5].
Proof. reflexivity. Qed.

Example ex_truncate_then_grow :
  outcome_vals (run [ONew; OExtend 0 [Byte.x01; Byte.x02; Byte.x03];
                     OSetLen 0 1; OSetLen 0 3; OMutBytes 0] init)
  = Some [VHandle 0; VUnit; VUnit; VUnit; VBytes [Byte.x01; Byte.x00; Byte.x00]].
Proof. reflexivity. Qed.

Example ex_use_after_into_immutable :
  run [ONew; OIntoImmutable 0; OMutLen 0] init = Rejected.
Proof. reflexivity. Qed.

Example ex_capacity :
  run [OWithMaxCap 2; OExtend 0 [Byte.x01; Byte.x02]; OExtend 0 [Byte.x03]] init = Fatal.
Proof. reflexivity. Qed.

Section Counting.

Lemma live_refs_app (hs : list handle) hd r :
  live_refs (hs ++ [hd]) r = live_refs hs r + contrib hd r.
Proof. induction hs as [|x hs IH]; simpl; [lia|]. rewrite IH. lia. Qed.

Lemma live_refs_insert (hs : list handle) i hd hd' r :
  hs !! i = Some hd ->
  live_refs (<[i:=hd']> hs) r + contrib hd r = live_refs hs r + contrib hd' r.
Proof.
  revert i. induction hs as [|x hs IH]; intros [|i] H; simpl in *; try discriminate.
  - injection H as ->. lia.
  - specialize (IH i H). lia.
Qed.

Lemma live_refs_ge (hs : list handle) i hd r :
  hs !! i = Some hd -> contrib hd r <= live_refs hs r.
Proof.
  revert i. induction hs as [|x hs IH]; intros [|i] H; simpl in *; try discriminate.
  - injection H as ->. lia.
  - specialize (IH i H). lia.
Qed.

Lemma live_refs_zero (hs : list handle) r :
  (forall i hd, hs !! i = Some hd -> contrib hd r = 0) -> live_refs hs r = 0.
Proof.
  induction hs as [|x hs IH]; intros H; simpl; [done|].
  rewrite (H 0 x eq_refl), IH; [done|].
  intros i hd Hi. exact (H (S i) hd Hi).
Qed.

Lemma count_releases_app tr e h :
  count_releases (tr ++ [e]) h = count_releases tr h + (if fst e =? h then 1 else 0).
Proof.
  unfold count_releases. rewrite List.filter_app, length_app. simpl.
  destruct (fst e =? h); simpl; lia.
Qed.

Lemma contrib_live hd : hstat hd = Live -> contrib hd (href hd) = 1.
Proof. intros H. unfold contrib, is_live. rewrite H, Nat.eqb_refl. done. Qed.

Lemma contrib_not_live hd r : hstat hd <> Live -> contrib hd r = 0.
Proof. intros H. unfold contrib, is_live. destruct (hstat hd); done. Qed.

End Counting.

Lemma wf_init : wf init.
Proof.
  constructor; simpl; intros *; rewrite ?lookup_nil; try discriminate.
  done.
Qed.

Section Preservation.

Lemma released_expected_snoc_live (hs : list handle) k r j :
  released_expected (hs ++ [mkHandle k r Live]) j = released_expected hs j.
Proof.
  unfold released_expected. rewrite lookup_app.
  destruct (hs !! j); [done|]. destruct (j - length hs); done.
Qed.

Lemma released_expected_insert (hs : list handle) i hd s j :
  hs !! i = Some hd -> hstat hd = Live ->
  released_expected (<[i:=mkHandle (hkind hd) (href hd) s]> hs) j =
  released_expected hs j + (if (i =? j) then match s with Dropped => 1 | _ => 0 end else 0).
Proof.
  intros Hi Hl. unfold released_expected.
  destruct (Nat.eqb_spec i j) as [<-|Hne].
  - rewrite list_lookup_insert_eq by eauto using lookup_lt_Some.
    rewrite Hi, Hl. simpl. destruct s; done.
  - rewrite list_lookup_insert_ne by done. lia.
Qed.

Lemma live_lookup_insert (hs : list handle) i hd s j hd2 :
  hs !! i = Some hd -> s <> Live ->
  <[i:=mkHandle (hkind hd) (href hd) s]> hs !! j = Some hd2 -> hstat hd2 = Live ->
  i <> j /\ hs !! j = Some hd2.
Proof.
  intros Hi Hs H Hl. apply list_lookup_insert_Some in H as [(-> & <- & _)|H]; [|done].
  simpl in Hl. congruence.
Qed.

Lemma wf_store st r o o' :
  wf st -> objs st !! r = Some o ->
  retain_count o' = retain_count o ->
  (is_mutable o = true -> is_mutable o' = true) ->
  cf_len o' <= length (storage o') ->
  wf (mkState (<[r:=o']> (objs st)) (handles st) (releases st)).
Proof.
  intros [Hl Hn Hc Hr] Ho Hrc Hm Hlen. constructor; simpl.
  - intros i hd Hi Hlive. destruct (Hl i hd Hi Hlive) as (o1 & Ho1 & Hk).
    destruct (decide (href hd = r)) as [E|Hne].
    + exists o'. rewrite E in Ho1 |- *.
      rewrite list_lookup_insert_eq by eauto using lookup_lt_Some.
      rewrite Ho in Ho1. injection Ho1 as <-. auto.
    + exists o1. rewrite list_lookup_insert_ne by congruence. auto.
  - intros r' o2 H. apply list_lookup_insert_Some in H as [(-> & <- & _)|(_ & H)]; eauto.
  - intros r' o2 H. apply list_lookup_insert_Some in H as [(-> & <- & _)|(_ & H)]; eauto.
    rewrite Hrc. eauto.
  - exact Hr.
Qed.

Lemma wf_alloc_wrap st o k :
  wf st -> cf_len o <= length (storage o) -> retain_count o = 1 ->
  (k = KCFMutableData -> is_mutable o = true) ->
  wf (mkState (objs st ++ [o]) (handles st ++ [mkHandle k (length (objs st)) Live])
              (releases st)).
Proof.
  intros [Hl Hn Hc Hr] Hlen Hrc Hk. constructor; simpl.
  - intros i hd Hi Hlive. apply lookup_snoc_Some in Hi as [(_ & Hi)|(-> & <-)].
    + destruct (Hl i hd Hi Hlive) as (o1 & Ho1 & Hk1). exists o1.
      split; [by apply lookup_app_l_Some|done].
    + exists o. split; [|done]. apply lookup_snoc_Some. by right.
  - intros r o2 H. apply lookup_snoc_Some in H as [(_ & H)|(-> & <-)]; eauto.
  - intros r o2 H. rewrite live_refs_app.
    apply lookup_snoc_Some in H as [(Hlt & H)|(-> & <-)].
    + rewrite (Hc r o2 H). unfold contrib. simpl.
      rewrite (proj2 (Nat.eqb_neq _ _)) by lia. lia.
    + rewrite live_refs_zero.
      * unfold contrib. simpl. rewrite Nat.eqb_refl. lia.
      * intros i hd Hi. destruct (decide (hstat hd = Live)) as [HL|HL].
        -- destruct (Hl i hd Hi HL) as (o1 & Ho1 & _). apply lookup_lt_Some in Ho1.
           unfold contrib. rewrite (proj2 (Nat.eqb_neq _ _)) by lia.
           by rewrite andb_false_r.
        -- by apply contrib_not_live.
  - intros i. by rewrite Hr, released_expected_snoc_live.
Qed.

Lemma wf_into_immutable st i hd :
  wf st -> handles st !! i = Some hd -> hstat hd = Live ->
  wf (mkState (objs st)
              (<[i:=mkHandle (hkind hd) (href hd) Forgotten]> (handles st)
                 ++ [mkHandle KCFData (href hd) Live])
              (releases st)).
Proof.
  intros [Hl Hn Hc Hr] Hi HL. constructor; simpl.
  - intros j hd2 Hj Hlive. apply lookup_snoc_Some in Hj as [(_ & Hj)|(-> & <-)].
    + destruct (live_lookup_insert _ _ _ Forgotten _ _ Hi ltac:(discriminate) Hj Hlive)
        as [_ Hj'].
      eauto.
    + destruct (Hl i hd Hi HL) as (o & Ho & _). exists o. split; [done|]. done.
  - exact Hn.
  - intros r o Ho. rewrite live_refs_app, (Hc r o Ho).
    pose proof (live_refs_insert _ _ _ (mkHandle (hkind hd) (href hd) Forgotten) r Hi) as E.
    unfold contrib in *. simpl in *. unfold is_live in *. rewrite HL in E. simpl in E.
    lia.
  - intros j. rewrite Hr, released_expected_snoc_live,
      (released_expected_insert _ _ _ _ _ Hi HL).
    destruct (i =? j); lia.
Qed.

Lemma wf_clone st i hd o :
  wf st -> handles st !! i = Some hd -> hstat hd = Live -> objs st !! href hd = Some o ->
  wf (mkState (<[href hd:=mkCFData (storage o) (cf_len o) (max_capacity o) (is_mutable o)
                                   (S (retain_count o))]> (objs st))
              (handles st ++ [mkHandle (hkind hd) (href hd) Live])
              (releases st)).
Proof.
  intros [Hl Hn Hc Hr] Hi HL Ho. constructor; simpl.
  - intros j hd2 Hj Hlive. apply lookup_snoc_Some in Hj as [(_ & Hj)|(-> & <-)].
    + destruct (Hl j hd2 Hj Hlive) as (o2 & Ho2 & Hk2).
      destruct (decide (href hd2 = href hd)) as [E|E].
      * rewrite E, list_lookup_insert_eq by eauto using lookup_lt_Some.
        rewrite E, Ho in Ho2. injection Ho2 as <-. eexists; split; [done|]. done.
      * rewrite list_lookup_insert_ne by congruence. eauto.
    + simpl. rewrite list_lookup_insert_eq by eauto using lookup_lt_Some.
      destruct (Hl i hd Hi HL) as (o2 & Ho2 & Hk2). rewrite Ho in Ho2.
      injection Ho2 as <-. eexists; split; [done|]. done.
  - intros r o2 H. apply list_lookup_insert_Some in H as [(E' & <- & _)|(_ & H)]; eauto.
    subst r. simpl. eauto.
  - intros r o2 H. rewrite live_refs_app.
    apply list_lookup_insert_Some in H as [(E' & <- & _)|(Hne & H)].
    + subst r. simpl. rewrite (Hc _ _ Ho). unfold contrib. simpl.
      rewrite Nat.eqb_refl. lia.
    + rewrite (Hc r o2 H). unfold contrib. simpl.
      rewrite (proj2 (Nat.eqb_neq _ _)) by done. lia.
  - intros j. by rewrite Hr, released_expected_snoc_live.
Qed.

Lemma wf_drop st i hd o :
  wf st -> handles st !! i = Some hd -> hstat hd = Live -> objs st !! href hd = Some o ->
  wf (mkState (<[href hd:=mkCFData (storage o) (cf_len o) (max_capacity o) (is_mutable o)
                                   (pred (retain_count o))]> (objs st))
              (<[i:=mkHandle (hkind hd) (href hd) Dropped]> (handles st))
              (releases st ++ [(i, href hd)])).
Proof.
  intros [Hl Hn Hc Hr] Hi HL Ho. constructor; simpl.
  - intros j hd2 Hj Hlive.
    destruct (live_lookup_insert _ _ _ Dropped _ _ Hi ltac:(discriminate) Hj Hlive)
      as [_ Hj'].
    destruct (Hl j hd2 Hj' Hlive) as (o2 & Ho2 & Hk2).
    destruct (decide (href hd2 = href hd)) as [E|E].
    + rewrite E, list_lookup_insert_eq by eauto using lookup_lt_Some.
      rewrite E, Ho in Ho2. injection Ho2 as <-. eexists; split; [done|]. done.
    + rewrite list_lookup_insert_ne by congruence. eauto.
  - intros r o2 H. apply list_lookup_insert_Some in H as [(E' & <- & _)|(_ & H)]; eauto.
    subst r. simpl. eauto.
  - intros r o2 H.
    pose proof (live_refs_insert _ _ _ (mkHandle (hkind hd) (href hd) Dropped) r Hi) as E.
    rewrite (contrib_not_live (mkHandle _ _ Dropped)) in E by done.
    apply list_lookup_insert_Some in H as [(E' & <- & _)|(Hne & H)].
    + subst r. simpl. rewrite (Hc _ _ Ho). rewrite contrib_live in E by done. lia.
    + rewrite (Hc r o2 H). unfold contrib in E. simpl in E.
      rewrite (proj2 (Nat.eqb_neq _ _)) in E by done. rewrite andb_false_r in E. lia.
  - intros j. rewrite count_releases_app, Hr,
      (released_expected_insert _ _ _ _ _ Hi HL). simpl. done.
Qed.

End Preservation.

(** ** Inverting a successful run *)

Lemma bind_ok {A B} (m : M A) (k : A -> M B) st st'' b :
  bind m k st = Ok st'' b -> exists st' a, m st = Ok st' a /\ k a st' = Ok st'' b.
Proof. unfold bind. destruct (m st); try discriminate. eauto. Qed.

Lemma to_CFIndex_ok n st st' m :
  to_CFIndex n st = Ok st' m -> st' = st /\ m = n /\ (Z.of_nat n <= isize_MAX)%Z.
Proof.
  unfold to_CFIndex. destruct (Z.leb_spec (Z.of_nat n) isize_MAX); [|discriminate].
  unfold ret. intros E. injection E as <- <-. auto.
Qed.

Lemma to_CFIndex_in_range n st :
  (Z.of_nat n <= isize_MAX)%Z -> to_CFIndex n st = Ok st n.
Proof. intros Hn. unfold to_CFIndex. apply Z.leb_le in Hn. rewrite Hn. reflexivity. Qed.

Lemma kind_eqb_true a b : kind_eqb a b = true -> a = b.
Proof. destruct a, b; simpl; congruence. Qed.

Lemma is_live_true hd : is_live hd = true -> hstat hd = Live.
Proof. unfold is_live. destruct (hstat hd); congruence. Qed.

Lemma borrow_ok k self st st' r :
  borrow k self st = Ok st' r ->
  st' = st /\ exists hd, handles st !! self = Some hd /\ hkind hd = k /\
                         hstat hd = Live /\ href hd = r.
Proof.
  unfold borrow, bind, handle_of. destruct (handles st !! self) as [hd|] eqn:E;
    [|discriminate].
  destruct (kind_eqb (hkind hd) k && is_live hd) eqn:B; [|discriminate].
  apply andb_true_iff in B as [B1 B2].
  unfold ret. intros H; injection H as <- <-.
  split; [done|]. exists hd. auto using kind_eqb_true, is_live_true.
Qed.

Lemma handle_of_ok self st st' hd :
  handle_of self st = Ok st' hd -> st' = st /\ handles st !! self = Some hd.
Proof.
  unfold handle_of. destruct (handles st !! self); [|discriminate].
  intros H; injection H as <- <-. done.
Qed.

Lemma lookup_obj_ok r st st' o :
  CF.lookup_obj r st = Ok st' o ->
  st' = st /\ objs st !! r = Some o /\ 0 < retain_count o.
Proof.
  unfold CF.lookup_obj. destruct (objs st !! r) as [o'|]; [|discriminate].
  destruct (0 <? retain_count o') eqn:B; [|discriminate].
  intros H; injection H as <- <-. apply Nat.ltb_lt in B. done.
Qed.

(** Peels the monadic layers off a hypothesis [H : m st = Ok st' a]. *)
Ltac inv_ok :=
  repeat match goal with
  | H : bind _ _ _ = Ok _ _ |- _ =>
      let st1 := fresh "st" in let a := fresh "a" in
      let H1 := fresh "H" in let H2 := fresh "H" in
      apply bind_ok in H as (st1 & a & H1 & H2)
  | H : ret _ _ = Ok _ _ |- _ => injection H as <- <-
  | H : borrow _ _ _ = Ok _ _ |- _ =>
      let hd := fresh "hd" in
      apply borrow_ok in H as (-> & hd & ? & ? & ? & <-)
  | H : handle_of _ _ = Ok _ _ |- _ => apply handle_of_ok in H as (-> & ?)
  | H : CF.lookup_obj _ _ = Ok _ _ |- _ => apply lookup_obj_ok in H as (-> & ? & ?)
  | H : to_CFIndex _ _ = Ok _ _ |- _ => apply to_CFIndex_ok in H as (-> & -> & ?)
  | H : undefined _ = Ok _ _ |- _ => discriminate H
  | H : panic _ = Ok _ _ |- _ => discriminate H
  | H : fatal _ = Ok _ _ |- _ => discriminate H
  | H : rejected _ = Ok _ _ |- _ => discriminate H
  | H : (if ?c then _ else _) _ = Ok _ _ |- _ => destruct c eqn:?
  | H : (fun _ => _) _ = Ok _ _ |- _ => cbv beta in H
  | H : Ok _ _ = Ok _ _ |- _ => injection H as <- <-
  end.

Ltac unfold_ops H :=
  unfold exec, CFData.from_buffer, CFData.deref, CFData.bytes, CFData.len,
    CFMutableData.new, CFMutableData.with_maximum_capacity,
    CFMutableData.deref, CFMutableData.deref_mut, CFMutableData.bytes, CFMutableData.bytes_mut, CFMutableData.extend_from_slice,
    CFMutableData.set_len, CFMutableData.into_immutable, CFMutableData.len,
    TCFType.clone, TCFType.drop,
    wrap_under_create_rule, new_handle, mem_forget, set_status, log_release,
    slice_from_raw_parts, CF.CFDataCreate, CF.CFDataCreateMutable, CF.CFDataGetLength,
    CF.CFDataGetBytePtr, CF.CFDataGetMutableBytePtr, CF.CFDataSetLength,
    CF.CFDataReplaceBytes, CF.CFRetain, CF.CFRelease, CF.alloc_obj, CF.store_obj in H.

Lemma exec_wf o st st' v : wf st -> exec o st = Ok st' v -> wf st'.
Proof.
  intros Hwf H. destruct o; unfold_ops H; inv_ok; simpl;
    repeat match goal with
    | H1 : handles ?s !! ?h = Some ?x, H2 : handles ?s !! ?h = Some ?y |- _ =>
        rewrite H1 in H2; injection H2 as <-
    | H : handles ?s !! ?h = Some _ |- context [handles ?s !! ?h] => rewrite H
    end.
  all: try done.
  (* from_buffer, new, with_maximum_capacity *)
  all: try (apply wf_alloc_wrap; simpl; rewrite ?length_take; try done; lia).
  (* extend_from_slice, set_len *)
  all: try (eapply wf_store; [exact Hwf|eassumption|done|done|];
            simpl; unfold CF.contents;
            rewrite ?length_app, ?length_take, ?repeat_length;
            match goal with
            | H : objs _ !! _ = Some ?o |- _ => pose proof (wf_len _ Hwf _ _ H)
            end; rewrite ?Nat.leb_le in *; lia).
  - eapply wf_into_immutable; eauto.
  - eapply wf_clone; eauto.
  - eapply wf_drop; eauto.
Qed.

Lemma run_wf ps st st' vs : wf st -> run ps st = Ok st' vs -> wf st'.
Proof.
  revert st st' vs. induction ps as [|p ps IH]; intros st st' vs Hwf H; simpl in H.
  - unfold ret in H. injection H as <- _. done.
  - inv_ok. eapply IH; [|eassumption]. eapply exec_wf; eassumption.
Qed.

(** ** Destructors at the end of the scope *)

Lemma kind_eqb_refl k : kind_eqb k k = true.
Proof. by destruct k. Qed.

Lemma live_has_object st i hd :
  wf st -> handles st !! i = Some hd -> hstat hd = Live ->
  exists o, objs st !! href hd = Some o /\ 0 < retain_count o /\
            (hkind hd = KCFMutableData -> is_mutable o = true).
Proof.
  intros Hwf Hi HL. destruct (wf_live _ Hwf i hd Hi HL) as (o & Ho & Hk).
  exists o. split; [done|]. split; [|done].
  rewrite (wf_rc _ Hwf _ _ Ho).
  pose proof (live_refs_ge _ _ _ (href hd) Hi) as E. rewrite contrib_live in E by done. lia.
Qed.

Lemma drop_ok st i hd :
  wf st -> handles st !! i = Some hd -> hstat hd = Live ->
  exists o, objs st !! href hd = Some o /\
    TCFType.drop i st =
    Ok (mkState (<[href hd:=mkCFData (storage o) (cf_len o) (max_capacity o) (is_mutable o)
                                     (pred (retain_count o))]> (objs st))
                (<[i:=mkHandle (hkind hd) (href hd) Dropped]> (handles st))
                (releases st ++ [(i, href hd)])) tt.
Proof.
  intros Hwf Hi HL. destruct (live_has_object st i hd Hwf Hi HL) as (o & Ho & Hrc & _).
  exists o. split; [done|].
  unfold TCFType.drop, borrow, bind, handle_of, ret, CF.CFRelease, CF.lookup_obj,
    CF.store_obj, set_status, log_release.
  apply Nat.ltb_lt in Hrc. unfold is_live.
  repeat first [rewrite Hi | rewrite kind_eqb_refl | rewrite HL | rewrite Ho
               | rewrite Hrc | progress simpl | progress unfold bind].
  done.
Qed.

Lemma drop_live_spec n st :
  wf st -> n <= length (handles st) ->
  exists st', drop_live n st = Ok st' tt /\ wf st' /\
    (forall j, handles st' !! j = dropped_below n j <$> handles st !! j).
Proof.
  revert st. induction n as [|n IH]; intros st Hwf Hn; simpl.
  - exists st. split; [done|]. split; [done|].
    intros j. destruct (handles st !! j); simpl; [|done].
    unfold dropped_below. done.
  - destruct (lookup_lt_is_Some_2 (handles st) n ltac:(lia)) as [hd Hi].
    unfold bind at 1, handle_of at 1. rewrite Hi.
    destruct (is_live hd) eqn:L.
    + pose proof (is_live_true _ L) as HL.
      destruct (drop_ok st n hd Hwf Hi HL) as (o & Ho & Hd).
      unfold bind at 1. rewrite Hd.
      pose proof (wf_drop st n hd o Hwf Hi HL Ho) as Hwf1.
      destruct (IH _ Hwf1) as (st' & Hrun & Hwf' & Hh); [simpl; rewrite length_insert; lia|].
      exists st'. split; [exact Hrun|]. split; [done|].
      intros j. rewrite Hh. simpl.
      destruct (decide (j = n)) as [->|Hne].
      * rewrite list_lookup_insert_eq, Hi by eauto using lookup_lt_Some. simpl.
        unfold dropped_below. rewrite Nat.ltb_irrefl, L.
        replace (n <? S n) with true by (symmetry; apply Nat.ltb_lt; lia). done.
      * rewrite list_lookup_insert_ne by done.
        destruct (handles st !! j) as [hd2|]; simpl; [|done]. f_equal.
        unfold dropped_below.
        destruct (Nat.ltb_spec j n), (Nat.ltb_spec j (S n)); try lia; done.
    + unfold bind at 1, ret at 1.
      destruct (IH _ Hwf) as (st' & Hrun & Hwf' & Hh); [lia|].
      exists st'. split; [exact Hrun|]. split; [done|].
      intros j. rewrite Hh.
      destruct (decide (j = n)) as [->|Hne].
      * rewrite Hi. simpl. unfold dropped_below. rewrite L, !andb_false_r. done.
      * destruct (handles st !! j) as [hd2|]; simpl; [|done]. f_equal.
        unfold dropped_below.
        destruct (Nat.ltb_spec j n), (Nat.ltb_spec j (S n)); try lia; done.
Qed.

Lemma forgotten_snoc_live (hs : list handle) k r i :
  forgotten (hs ++ [mkHandle k r Live]) i = forgotten hs i.
Proof.
  unfold forgotten. rewrite lookup_app. destruct (hs !! i); [done|].
  destruct (i - length hs); done.
Qed.

Lemma forgotten_insert (hs : list handle) h hd s i :
  hs !! h = Some hd -> hstat hd = Live ->
  forgotten (<[h:=mkHandle (hkind hd) (href hd) s]> hs) i =
  forgotten hs i || ((h =? i) && match s with Forgotten => true | _ => false end).
Proof.
  intros Hh HL. unfold forgotten. destruct (Nat.eqb_spec h i) as [<-|Hne].
  - rewrite list_lookup_insert_eq, Hh, HL by eauto using lookup_lt_Some. done.
  - rewrite list_lookup_insert_ne by done. by rewrite orb_false_r.
Qed.

Lemma exec_forgotten o st st' v i :
  exec o st = Ok st' v ->
  forgotten (handles st') i = forgotten (handles st) i || into_immutable_of o i.
Proof.
  intros H. destruct o; unfold_ops H; inv_ok; simpl;
    repeat match goal with
    | H1 : handles ?s !! ?h = Some ?x, H2 : handles ?s !! ?h = Some ?y |- _ =>
        rewrite H1 in H2; injection H2 as <-
    | H : handles ?s !! ?h = Some _ |- context [handles ?s !! ?h] => rewrite H
    end;
    rewrite ?forgotten_snoc_live, ?orb_false_r; try done.
  - erewrite forgotten_insert by eassumption. by rewrite andb_true_r.
  - erewrite forgotten_insert by eassumption. by rewrite andb_false_r, orb_false_r.
Qed.

Lemma run_forgotten ps st st' vs i :
  run ps st = Ok st' vs ->
  forgotten (handles st') i =
  forgotten (handles st) i || existsb (fun o => into_immutable_of o i) ps.
Proof.
  revert st st' vs. induction ps as [|p ps IH]; intros st st' vs H; simpl in H.
  - unfold ret in H. injection H as <- _. simpl. by rewrite orb_false_r.
  - apply bind_ok in H as (st1 & v & Hexec & H).
    apply bind_ok in H as (st2 & vs' & Hrun & H).
    unfold ret in H. injection H as <- _.
    rewrite (IH _ _ _ Hrun), (exec_forgotten _ _ _ _ i Hexec). simpl.
    by rewrite orb_assoc.
Qed.

(** ** C2: one release per handle, none for the handle consumed by
    [into_immutable] *)

(** C2: for every program that runs, when its scope ends every handle it
    constructed has been released exactly once by its destructor, except a
    [CFMutableData] consumed by [into_immutable] (its destructor is
    suppressed by [mem::forget]), which is never released; the release of
    the shared reference is left to the [CFData] produced, and every foreign
    object ends with retain count zero. *)
Theorem release_exactly_once ps st vs :
  run ps init = Ok st vs ->
  exists st', end_scope st = Ok st' tt /\
    (forall i hd, handles st !! i = Some hd ->
       count_releases (releases st') i =
       if existsb (fun o => into_immutable_of o i) ps then 0 else 1) /\
    (forall r o, objs st' !! r = Some o -> retain_count o = 0).
Proof.
  intros H. pose proof (run_wf _ _ _ _ wf_init H) as Hwf.
  destruct (drop_live_spec (length (handles st)) st Hwf ltac:(lia))
    as (st' & Hd & Hwf' & Hh).
  exists st'. split; [exact Hd|]. split.
  - intros i hd Hi. rewrite (wf_rel _ Hwf'). unfold released_expected.
    rewrite Hh, Hi. simpl.
    pose proof (run_forgotten _ _ _ _ i H) as F.
    unfold forgotten in F. rewrite Hi in F. simpl in F.
    simpl in F. rewrite <- F.
    unfold dropped_below. apply lookup_lt_Some in Hi.
    rewrite (proj2 (Nat.ltb_lt _ _) Hi). unfold is_live.
    destruct (hstat hd) eqn:E'; simpl; rewrite ?E'; done.
  - intros r o Ho. rewrite (wf_rc _ Hwf' _ _ Ho). apply live_refs_zero.
    intros j hd' Hj. rewrite Hh in Hj.
    destruct (handles st !! j) as [hd|] eqn:E; [|discriminate].
    simpl in Hj. injection Hj as <-. apply lookup_lt_Some in E.
    unfold dropped_below, contrib. rewrite (proj2 (Nat.ltb_lt _ _) E).
    unfold is_live. destruct (hstat hd) eqn:E'; simpl; rewrite ?E'; done.
Qed.

Lemma release_exactly_once_witness :
  run c2_prog init = Ok (final_state (run c2_prog init)) (final_value (run c2_prog init) []) /\
  exists st', end_scope (final_state (run c2_prog init)) = Ok st' tt /\
    (forall i hd, handles (final_state (run c2_prog init)) !! i = Some hd ->
       count_releases (releases st') i =
       if existsb (fun o => into_immutable_of o i) c2_prog then 0 else 1) /\
    (forall r o, objs st' !! r = Some o -> retain_count o = 0).
Proof.
  assert (H : run c2_prog init =
              Ok (final_state (run c2_prog init)) (final_value (run c2_prog init) []))
    by (vm_compute; reflexivity).
  split; [exact H|exact (release_exactly_once _ _ _ H)].
Defined.

(** ** The operations on an owned handle of a well-formed state *)

Ltac run_simpl :=
  repeat first
    [ progress unfold bind
    | progress unfold ret
    | progress simpl
    | rewrite kind_eqb_refl
    | rewrite andb_false_r
    | match goal with
      | H : is_live ?x = _ |- context [is_live ?x] => rewrite H
      | H : (Z.of_nat ?n <= isize_MAX)%Z |- context [to_CFIndex ?n ?s] =>
          rewrite (to_CFIndex_in_range n s H)
      | H : ?a !! ?b = Some _ |- context [?a !! ?b] => rewrite H
      | H : hstat ?x = _ |- context [hstat ?x] => rewrite H
      | H : hkind ?x = _ |- context [hkind ?x] => rewrite H
      | H : is_mutable ?x = _ |- context [is_mutable ?x] => rewrite H
      | H : (?a <? ?b) = _ |- context [?a <? ?b] => rewrite H
      | H : (?a <=? ?b) = _ |- context [?a <=? ?b] => rewrite H
      | H : ?m ?s = Ok _ _ |- context [?m ?s] => rewrite H
      end ].

Lemma read_spec st h hd :
  wf st -> handles st !! h = Some hd -> hstat hd = Live ->
  exists o, objs st !! href hd = Some o /\ cf_len o <= length (storage o) /\
    (hkind hd = KCFData ->
       CFData.len h st = Ok st (cf_len o) /\
       CFData.bytes h st = Ok st (CF.contents o)) /\
    (hkind hd = KCFMutableData ->
       is_mutable o = true /\
       CFMutableData.len h st = Ok st (cf_len o) /\
       CFMutableData.bytes h st = Ok st (CF.contents o) /\
       CFMutableData.bytes_mut h st = Ok st (CF.contents o)).
Proof.
  intros Hwf Hh HL. destruct (live_has_object st h hd Hwf Hh HL) as (o & Ho & Hrc & Hm).
  pose proof (wf_len _ Hwf _ _ Ho) as Hlen.
  exists o. split; [done|]. split; [done|].
  apply Nat.ltb_lt in Hrc. apply Nat.leb_le in Hlen.
  split; intros Hk; [|pose proof (Hm Hk) as Hmut; split; [done|]].
  - assert (E : CFData.len h st = Ok st (cf_len o)).
    { unfold CFData.len, borrow, handle_of, CF.CFDataGetLength, CF.lookup_obj.
      unfold is_live. run_simpl. done. }
    split; [done|].
    unfold CFData.bytes, borrow, handle_of, CF.CFDataGetBytePtr, CF.lookup_obj,
      slice_from_raw_parts.
    unfold is_live. run_simpl. done.
  - assert (E : CFMutableData.len h st = Ok st (cf_len o)).
    { unfold CFMutableData.len, borrow, handle_of, CF.CFDataGetLength, CF.lookup_obj.
      unfold is_live. run_simpl. done. }
    split; [done|].
    unfold CFMutableData.bytes, CFMutableData.bytes_mut, borrow, handle_of,
      CF.CFDataGetBytePtr, CF.CFDataGetMutableBytePtr, CF.lookup_obj,
      slice_from_raw_parts.
    unfold is_live. run_simpl. done.
Qed.

Lemma contents_length o : cf_len o <= length (storage o) -> length (CF.contents o) = cf_len o.
Proof. intros H. unfold CF.contents. rewrite length_take. lia. Qed.

Lemma extend_spec st h hd o b :
  wf st -> handles st !! h = Some hd -> hstat hd = Live -> hkind hd = KCFMutableData ->
  objs st !! href hd = Some o ->
  CFMutableData.extend_from_slice h b st =
  if CF.within_capacity o (cf_len o + length b)
  then Ok (mkState (<[href hd:=mkCFData (CF.contents o ++ b) (cf_len o + length b)
                                        (max_capacity o) true (retain_count o)]> (objs st))
                   (handles st) (releases st)) tt
  else Fatal.
Proof.
  intros Hwf Hh HL Hk Ho.
  destruct (read_spec st h hd Hwf Hh HL) as (o' & Ho' & Hlen & _ & Hmut).
  rewrite Ho in Ho'. injection Ho' as <-. destruct (Hmut Hk) as (Hm & Hl & _).
  destruct (live_has_object st h hd Hwf Hh HL) as (o' & Ho' & Hrc & _).
  rewrite Ho in Ho'. injection Ho' as <-. apply Nat.ltb_lt in Hrc.
  unfold CFMutableData.extend_from_slice. unfold bind at 1. unfold bind at 1.
  unfold borrow, handle_of, bind at 1. run_simpl. unfold is_live. run_simpl.
  unfold CF.CFDataReplaceBytes, CF.lookup_obj. run_simpl.
  rewrite Nat.add_0_r, !Nat.leb_refl. simpl.
  rewrite (take_ge (CF.contents o)), (drop_ge (CF.contents o))
    by (rewrite contents_length; lia).
  rewrite app_nil_r, (take_ge b) by lia.
  rewrite length_app, contents_length by done.
  destruct (CF.within_capacity o (cf_len o + length b)); done.
Qed.

Lemma set_len_spec st h hd o n :
  wf st -> handles st !! h = Some hd -> hstat hd = Live -> hkind hd = KCFMutableData ->
  objs st !! href hd = Some o -> (Z.of_nat n <= isize_MAX)%Z ->
  CFMutableData.set_len h n st =
  if CF.within_capacity o n
  then Ok (mkState (<[href hd:=if n <=? cf_len o
                               then mkCFData (storage o) n (max_capacity o) true
                                             (retain_count o)
                               else mkCFData (CF.contents o ++ repeat Byte.x00 (n - cf_len o))
                                             n (max_capacity o) true (retain_count o)]>
                      (objs st))
                   (handles st) (releases st)) tt
  else Fatal.
Proof.
  intros Hwf Hh HL Hk Ho Hn.
  destruct (live_has_object st h hd Hwf Hh HL) as (o' & Ho' & Hrc & Hm).
  rewrite Ho in Ho'. injection Ho' as <-. apply Nat.ltb_lt in Hrc.
  pose proof (Hm Hk) as Hmut.
  unfold CFMutableData.set_len, borrow, handle_of, CF.CFDataSetLength, CF.lookup_obj.
  unfold is_live. run_simpl.
  destruct (CF.within_capacity o n); simpl; [|done].
  destruct (n <=? cf_len o); done.
Qed.

(** Above [isize::MAX], [set_len] panics in [to_CFIndex] before it reaches
    the foreign runtime, whatever the buffer's capacity. *)
Lemma set_len_panic st h hd n :
  handles st !! h = Some hd -> hstat hd = Live -> hkind hd = KCFMutableData ->
  (isize_MAX < Z.of_nat n)%Z -> CFMutableData.set_len h n st = Panic.
Proof.
  intros Hh HL Hk Hn.
  unfold CFMutableData.set_len, borrow, handle_of, to_CFIndex.
  unfold is_live. run_simpl.
  destruct (Z.leb_spec (Z.of_nat n) isize_MAX); [lia|]. reflexivity.
Qed.

Lemma reachable_wf st : reachable st -> wf st.
Proof. intros (ps & vs & H). exact (run_wf _ _ _ _ wf_init H). Qed.

Lemma exec_not_live o st h hd :
  op_subject o = Some h -> handles st !! h = Some hd -> is_live hd = false ->
  exec o st = Rejected.
Proof.
  intros Hs Hh Hl.
  destruct o; simpl in Hs; try discriminate; injection Hs as ->;
    unfold exec, CFData.deref, CFData.bytes, CFData.len, CFMutableData.deref,
      CFMutableData.deref_mut, CFMutableData.bytes, CFMutableData.bytes_mut,
      CFMutableData.len, CFMutableData.extend_from_slice, CFMutableData.set_len,
      CFMutableData.into_immutable, TCFType.clone, TCFType.drop, borrow, handle_of;
    run_simpl; done.
Qed.

(** ** C1: duplication of a [CFMutableData] *)

(** C1: the [Clone] that [impl_TCFType!] derives for [CFMutableData]
    produces a second live [CFMutableData] over the same foreign buffer:
    after [new()] and [clone()] both handles are owned, both are mutable
    views of object 0, an append through the clone is seen through the
    original, and both hand out a mutable byte view at the same time. *)
Theorem mutable_clone_aliases :
  run c1_prog init =
    Ok (final_state (run c1_prog init))
       [VHandle 0; VHandle 1; VUnit; VBytes [Byte.x01]; VBytes [Byte.x01]] /\
  handles (final_state (run c1_prog init)) =
    [mkHandle KCFMutableData 0 Live; mkHandle KCFMutableData 0 Live].
Proof. split; vm_compute; reflexivity. Qed.

(** ** C3: [into_immutable] *)

(** C3: converting an owned [CFMutableData] [h] of any reachable state
    yields a [CFData] bound to the same foreign reference, without creating
    an object and without a retain or release (object store and release
    trace unchanged); its bytes and length are those [h] showed just
    before, and every later use of [h] is refused by the compiler. *)
Theorem into_immutable_transfers st h hd :
  reachable st -> handles st !! h = Some hd -> hstat hd = Live ->
  hkind hd = KCFMutableData ->
  exists st' h' bs n,
    CFMutableData.bytes h st = Ok st bs /\ CFMutableData.len h st = Ok st n /\
    CFMutableData.into_immutable h st = Ok st' h' /\
    objs st' = objs st /\ releases st' = releases st /\
    handles st' !! h' = Some (mkHandle KCFData (href hd) Live) /\
    CFData.bytes h' st' = Ok st' bs /\ CFData.len h' st' = Ok st' n /\
    (forall o, op_subject o = Some h -> exec o st' = Rejected).
Proof.
  intros Hr Hh HL Hk. pose proof (reachable_wf _ Hr) as Hwf.
  destruct (read_spec st h hd Hwf Hh HL) as (o & Ho & Hlen & _ & Hmut).
  destruct (Hmut Hk) as (_ & Hl & Hb & _).
  set (hs' := <[h:=mkHandle (hkind hd) (href hd) Forgotten]> (handles st)
                ++ [mkHandle KCFData (href hd) Live]).
  set (st' := mkState (objs st) hs' (releases st)).
  assert (Hi : CFMutableData.into_immutable h st = Ok st' (length (handles st))).
  { unfold CFMutableData.into_immutable, borrow, handle_of, mem_forget, set_status,
      new_handle.
    unfold is_live. run_simpl. rewrite length_insert. unfold st', hs'. rewrite Hk. done. }
  assert (Hwf' : wf st') by (apply wf_into_immutable; done).
  assert (Hh' : handles st' !! length (handles st) = Some (mkHandle KCFData (href hd) Live)).
  { simpl. unfold hs'. rewrite lookup_app_r by (rewrite length_insert; lia).
    rewrite length_insert, Nat.sub_diag. done. }
  destruct (read_spec st' _ _ Hwf' Hh' eq_refl) as (o' & Ho' & _ & Hdata & _).
  simpl in Ho'. rewrite Ho in Ho'. injection Ho' as <-.
  destruct (Hdata eq_refl) as [Hl' Hb'].
  exists st', (length (handles st)), (CF.contents o), (cf_len o).
  repeat split; try done.
  intros op Hs.
  apply (exec_not_live op st' h (mkHandle (hkind hd) (href hd) Forgotten));
    [exact Hs| |done].
  simpl. unfold hs'.
  rewrite lookup_app_l by (rewrite length_insert; eauto using lookup_lt_Some).
  apply list_lookup_insert_eq. eauto using lookup_lt_Some.
Qed.

Lemma into_immutable_transfers_witness :
  exists st' h' bs n,
    CFMutableData.bytes 0 (final_state (run c3_prog init)) =
      Ok (final_state (run c3_prog init)) bs /\
    CFMutableData.len 0 (final_state (run c3_prog init)) =
      Ok (final_state (run c3_prog init)) n /\
    CFMutableData.into_immutable 0 (final_state (run c3_prog init)) = Ok st' h' /\
    objs st' = objs (final_state (run c3_prog init)) /\
    releases st' = releases (final_state (run c3_prog init)) /\
    handles st' !! h' = Some (mkHandle KCFData 0 Live) /\
    CFData.bytes h' st' = Ok st' bs /\ CFData.len h' st' = Ok st' n /\
    (forall o, op_subject o = Some 0 -> exec o st' = Rejected).
Proof.
  apply (into_immutable_transfers (final_state (run c3_prog init)) 0
           (mkHandle KCFMutableData 0 Live)).
  - exists c3_prog, (final_value (run c3_prog init) []). vm_compute. reflexivity.
  - vm_compute. reflexivity.
  - reflexivity.
  - reflexivity.
Defined.

(** ** C4: [CFData::from_buffer] *)

(** C4: from any state, [from_buffer(b)] yields a handle whose [bytes()]
    are [b] and whose [len()] is the length of [b]. *)
Theorem from_buffer_bytes st b :
  exists st' h, CFData.from_buffer b st = Ok st' h /\
    CFData.bytes h st' = Ok st' b /\ CFData.len h st' = Ok st' (length b).
Proof.
  set (o := mkCFData (take (length b) b) (length b) (length b) false 1).
  set (st' := mkState (objs st ++ [o])
                      (handles st ++ [mkHandle KCFData (length (objs st)) Live])
                      (releases st)).
  exists st', (length (handles st)).
  assert (Hh : (handles st ++ [mkHandle KCFData (length (objs st)) Live])
                 !! length (handles st) =
               Some (mkHandle KCFData (length (objs st)) Live))
    by (apply list_lookup_middle; done).
  assert (Ho : (objs st ++ [o]) !! length (objs st) = Some o)
    by (apply list_lookup_middle; done).
  assert (Hlen : (length b <=? length (take (length b) b)) = true)
    by (apply Nat.leb_le; rewrite length_take; lia).
  assert (E : CFData.len (length (handles st)) st' = Ok st' (length b)).
  { unfold CFData.len, borrow, handle_of, CF.CFDataGetLength, CF.lookup_obj.
    run_simpl. done. }
  split; [|split; [|exact E]].
  - unfold CFData.from_buffer, CF.CFDataCreate, wrap_under_create_rule, new_handle,
      CF.alloc_obj.
    rewrite Nat.leb_refl. run_simpl. done.
  - unfold CFData.bytes, borrow, handle_of, CF.CFDataGetBytePtr, CF.lookup_obj,
      slice_from_raw_parts.
    run_simpl. rewrite (take_ge b), (take_ge b) by lia. done.
Qed.

Lemma run_cons_ok p ps st st1 st' v vs :
  exec p st = Ok st1 v -> run ps st1 = Ok st' vs -> run (p :: ps) st = Ok st' (v :: vs).
Proof. intros H1 H2. simpl. unfold bind. rewrite H1, H2. done. Qed.

Lemma exec_extend_ok st h hd o b :
  wf st -> handles st !! h = Some hd -> hstat hd = Live -> hkind hd = KCFMutableData ->
  objs st !! href hd = Some o -> CF.within_capacity o (cf_len o + length b) = true ->
  exec (OExtend h b) st =
  Ok (mkState (<[href hd:=mkCFData (CF.contents o ++ b) (cf_len o + length b)
                                   (max_capacity o) true (retain_count o)]> (objs st))
              (handles st) (releases st)) VUnit.
Proof.
  intros Hwf Hh HL Hk Ho Hc. unfold exec, bind at 1.
  rewrite (extend_spec st h hd o b Hwf Hh HL Hk Ho), Hc. done.
Qed.

Lemma exec_extend_fatal st h hd o b :
  wf st -> handles st !! h = Some hd -> hstat hd = Live -> hkind hd = KCFMutableData ->
  objs st !! href hd = Some o -> CF.within_capacity o (cf_len o + length b) = false ->
  exec (OExtend h b) st = Fatal.
Proof.
  intros Hwf Hh HL Hk Ho Hc. unfold exec, bind at 1.
  rewrite (extend_spec st h hd o b Hwf Hh HL Hk Ho), Hc. done.
Qed.

(** ** C5: [extend_from_slice] *)

(** C5: [extend_from_slice(b)] on an owned [CFMutableData] of a reachable
    state whose buffer has room for [b] (always the case for an unbounded
    buffer) replaces the empty range at the end: afterwards its bytes are
    the old bytes followed by [b] and its length grew by exactly [length b];
    and from [new()], [extend_from_slice(b1)] then [extend_from_slice(b2)]
    leave bytes [b1 ++ b2] and length [length b1 + length b2]. *)
Theorem extend_from_slice_appends :
  (forall st h hd b bs n,
     reachable st -> handles st !! h = Some hd -> hstat hd = Live ->
     hkind hd = KCFMutableData ->
     CFMutableData.bytes h st = Ok st bs -> CFMutableData.len h st = Ok st n ->
     (forall o, objs st !! href hd = Some o -> CF.within_capacity o (n + length b) = true) ->
     exists st', CFMutableData.extend_from_slice h b st = Ok st' tt /\
       CFMutableData.bytes h st' = Ok st' (bs ++ b) /\
       CFMutableData.len h st' = Ok st' (n + length b)) /\
  (forall b1 b2, exists st,
     run [ONew; OExtend 0 b1; OExtend 0 b2; OMutBytes 0; OMutLen 0] init =
     Ok st [VHandle 0; VUnit; VUnit; VBytes (b1 ++ b2); VLen (length b1 + length b2)]).
Proof.
  split.
  - intros st h hd b bs n Hr Hh HL Hk Hb Hn Hcap. pose proof (reachable_wf _ Hr) as Hwf.
    destruct (read_spec st h hd Hwf Hh HL) as (o & Ho & Hlen & _ & Hmut).
    destruct (Hmut Hk) as (_ & Hl & Hb' & _).
    rewrite Hb in Hb'. injection Hb' as ->. rewrite Hn in Hl. injection Hl as ->.
    pose proof (Hcap o Ho) as Hc.
    rewrite (extend_spec st h hd o b Hwf Hh HL Hk Ho), Hc.
    eexists; split; [reflexivity|].
    set (st' := mkState _ _ _).
    assert (Hwf' : wf st').
    { apply (wf_store st (href hd) o); try done. simpl. rewrite length_app, contents_length; lia. }
    destruct (read_spec st' h hd Hwf' Hh HL) as (o' & Ho' & _ & _ & Hmut').
    simpl in Ho'. rewrite list_lookup_insert_eq in Ho' by eauto using lookup_lt_Some.
    injection Ho' as <-. destruct (Hmut' Hk) as (_ & Hl' & Hb'' & _).
    simpl in Hl', Hb''. unfold CF.contents in Hb'' at 1. simpl in Hb''.
    rewrite take_ge in Hb'' by (rewrite length_app, contents_length; lia).
    done.
  - intros b1 b2.
    set (o0 := mkCFData [] 0 0 true 1).
    set (h0 := mkHandle KCFMutableData 0 Live).
    set (st1 := mkState [o0] [h0] []).
    assert (E1 : exec ONew init = Ok st1 (VHandle 0)) by reflexivity.
    assert (W1 : wf st1) by (exact (exec_wf _ _ _ _ wf_init E1)).
    set (o1 := mkCFData (CF.contents o0 ++ b1) (cf_len o0 + length b1) 0 true 1).
    set (st2 := mkState [o1] [h0] []).
    assert (E2 : exec (OExtend 0 b1) st1 = Ok st2 VUnit)
      by (apply (exec_extend_ok st1 0 h0 o0 b1); done).
    assert (W2 : wf st2) by (exact (exec_wf _ _ _ _ W1 E2)).
    set (o2 := mkCFData (CF.contents o1 ++ b2) (cf_len o1 + length b2) 0 true 1).
    set (st3 := mkState [o2] [h0] []).
    assert (E3 : exec (OExtend 0 b2) st2 = Ok st3 VUnit)
      by (apply (exec_extend_ok st2 0 h0 o1 b2); done).
    assert (W3 : wf st3) by (exact (exec_wf _ _ _ _ W2 E3)).
    destruct (read_spec st3 0 h0 W3 eq_refl eq_refl) as (o' & Ho' & _ & _ & Hmut).
    simpl in Ho'. injection Ho' as <-. destruct (Hmut eq_refl) as (_ & Hl & Hb & _).
    assert (Ec : CF.contents o2 = b1 ++ b2).
    { unfold o2, o1, o0, CF.contents. simpl.
      rewrite (take_ge b1) by lia. rewrite take_ge by (rewrite length_app; lia). done. }
    exists st3.
    eapply run_cons_ok; [exact E1|].
    eapply run_cons_ok; [exact E2|].
    eapply run_cons_ok; [exact E3|].
    eapply run_cons_ok; [unfold exec, bind at 1; rewrite Hb, Ec; reflexivity|].
    eapply run_cons_ok; [unfold exec, bind at 1; rewrite Hl; reflexivity|].
    reflexivity.
Qed.

Lemma read_after_store st h hd o o' :
  wf st -> handles st !! h = Some hd -> hstat hd = Live -> hkind hd = KCFMutableData ->
  objs st !! href hd = Some o -> retain_count o' = retain_count o ->
  is_mutable o' = true -> cf_len o' <= length (storage o') ->
  let st' := mkState (<[href hd:=o']> (objs st)) (handles st) (releases st) in
  CFMutableData.len h st' = Ok st' (cf_len o') /\
  CFMutableData.bytes h st' = Ok st' (CF.contents o').
Proof.
  intros Hwf Hh HL Hk Ho Hrc Hm Hlen st'.
  assert (Hwf' : wf st') by (apply (wf_store st (href hd) o); done).
  destruct (read_spec st' h hd Hwf' Hh HL) as (o1 & Ho1 & _ & _ & Hmut).
  simpl in Ho1. rewrite list_lookup_insert_eq in Ho1 by eauto using lookup_lt_Some.
  injection Ho1 as <-. destruct (Hmut Hk) as (_ & Hl & Hb & _). done.
Qed.

(** ** C6: [set_len] *)

(** C6 (as amended): [set_len(n)] on an owned [CFMutableData] of a
    reachable state, whose current bytes are [bs], resizes it in place when
    [n] is at most [isize::MAX] and the buffer's maximum capacity allows [n]
    (capacity 0, i.e. unbounded, or [n] at most the capacity): with [n]
    below [length bs] the bytes become the first [n] of [bs], with [n] above
    they become [bs] followed by [n - length bs] zero bytes, with
    [n = length bs] the state is unchanged, and the length is [n] in all
    cases. Past a nonzero maximum capacity the call is the fatal capacity
    condition instead, and above [isize::MAX] it panics in [to_CFIndex]. *)
Theorem set_len_resizes st h hd bs :
  reachable st -> handles st !! h = Some hd -> hstat hd = Live ->
  hkind hd = KCFMutableData -> CFMutableData.bytes h st = Ok st bs ->
  exists o, objs st !! href hd = Some o /\ forall n,
    ((isize_MAX < Z.of_nat n)%Z -> CFMutableData.set_len h n st = Panic) /\
    ((Z.of_nat n <= isize_MAX)%Z -> CF.within_capacity o n = false ->
       CFMutableData.set_len h n st = Fatal) /\
    ((Z.of_nat n <= isize_MAX)%Z -> CF.within_capacity o n = true ->
       exists st', CFMutableData.set_len h n st = Ok st' tt /\
         (n = length bs -> st' = st) /\
         CFMutableData.len h st' = Ok st' n /\
         CFMutableData.bytes h st' =
           Ok st' (if n <=? length bs then take n bs
                   else bs ++ repeat Byte.x00 (n - length bs))).
Proof.
  intros Hr Hh HL Hk Hb. pose proof (reachable_wf _ Hr) as Hwf.
  destruct (read_spec st h hd Hwf Hh HL) as (o & Ho & Hlen & _ & Hmut).
  destruct (Hmut Hk) as (Hm & _ & Hb' & _).
  rewrite Hb in Hb'. injection Hb' as ->.
  rewrite contents_length by done.
  exists o. split; [done|]. intros n.
  split; [exact (set_len_panic st h hd n Hh HL Hk)|].
  split; intros Hn; rewrite (set_len_spec st h hd o n Hwf Hh HL Hk Ho Hn);
    intros Hc; rewrite Hc; [done|].
  eexists; split; [reflexivity|].
  destruct (n <=? cf_len o) eqn:En.
  - apply Nat.leb_le in En.
    destruct (read_after_store st h hd o (mkCFData (storage o) n (max_capacity o) true
                (retain_count o)) Hwf Hh HL Hk Ho eq_refl eq_refl ltac:(simpl; lia))
      as (Hl & Hb2).
    split; [|split; [exact Hl|]].
    + intros ->. destruct st as [os hs rs]. simpl in *. f_equal.
      apply list_insert_id. rewrite Ho. destruct o; simpl in *. subst. done.
    + rewrite Hb2. unfold CF.contents at 1 2. simpl.
      rewrite take_take. f_equal. f_equal. lia.
  - apply Nat.leb_gt in En.
    destruct (read_after_store st h hd o
                (mkCFData (CF.contents o ++ repeat Byte.x00 (n - cf_len o)) n
                   (max_capacity o) true (retain_count o)) Hwf Hh HL Hk Ho eq_refl eq_refl
                ltac:(simpl; rewrite length_app, repeat_length, contents_length; lia))
      as (Hl & Hb2).
    split; [intros; lia|]. split; [exact Hl|].
    rewrite Hb2. unfold CF.contents. simpl.
    rewrite (take_ge (take (cf_len o) (storage o) ++ _))
      by (rewrite length_app, repeat_length, length_take; lia).
    done.
Qed.

Lemma set_len_resizes_witness :
  let S := final_state (run c6_prog init) in
  exists o, objs S !! 0 = Some o /\ forall n,
    ((isize_MAX < Z.of_nat n)%Z -> CFMutableData.set_len 0 n S = Panic) /\
    ((Z.of_nat n <= isize_MAX)%Z -> CF.within_capacity o n = false ->
       CFMutableData.set_len 0 n S = Fatal) /\
    ((Z.of_nat n <= isize_MAX)%Z -> CF.within_capacity o n = true ->
       exists st', CFMutableData.set_len 0 n S = Ok st' tt /\
         (n = 3 -> st' = S) /\
         CFMutableData.len 0 st' = Ok st' n /\
         CFMutableData.bytes 0 st' =
           Ok st' (if n <=? 3 then take n [Byte.x01; Byte.x02; Byte.x03]
                   else [Byte.x01; Byte.x02; Byte.x03] ++ repeat Byte.x00 (n - 3))).
Proof.
  intros S.
  apply (set_len_resizes S 0 (mkHandle KCFMutableData 0 Live) [Byte.x01; Byte.x02; Byte.x03]).
  - exists c6_prog, (final_value (run c6_prog init) []). vm_compute. reflexivity.
  - vm_compute. reflexivity.
  - reflexivity.
  - reflexivity.
  - vm_compute. reflexivity.
Defined.

(** C6, counterexample: on a buffer made by [with_maximum_capacity(1)],
    [set_len(2)] does not grow the buffer with zero bytes: growing past the
    nonzero maximum capacity is the fatal capacity condition. And on the
    unbounded buffer of [c6_prog] (made by [new()]), [set_len(2^63)] does
    not grow it either: [2^63] is above [isize::MAX] and the call panics in
    [to_CFIndex]. *)
Lemma set_len_capacity_counterexample :
  run [OWithMaxCap 1; OSetLen 0 2; OMutBytes 0] init = Fatal /\
  CFMutableData.set_len 0 (Z.to_nat (isize_MAX + 1)) (final_state (run c6_prog init)) = Panic.
Proof.
  split; [reflexivity|].
  apply (set_len_panic _ 0 (mkHandle KCFMutableData 0 Live)).
  - vm_compute. reflexivity.
  - reflexivity.
  - reflexivity.
  - rewrite Z2Nat.id by (unfold isize_MAX; lia). lia.
Qed.

(** ** C7: [len] is read live *)

(** C7: in every reachable state, for every live handle of either kind
    (including a [CFData] made by [into_immutable]), [len()] returns the
    current [cf_len] of the foreign object the handle points to, and leaves
    the state as it was. The handle itself holds only its kind, its
    reference and its ownership status: no length is cached in it. *)
Theorem len_is_live st h hd :
  reachable st -> handles st !! h = Some hd -> hstat hd = Live ->
  exists o, objs st !! href hd = Some o /\
    (hkind hd = KCFData -> CFData.len h st = Ok st (cf_len o)) /\
    (hkind hd = KCFMutableData -> CFMutableData.len h st = Ok st (cf_len o)).
Proof.
  intros Hr Hh HL. pose proof (reachable_wf _ Hr) as Hwf.
  destruct (read_spec st h hd Hwf Hh HL) as (o & Ho & _ & Himm & Hmut).
  exists o. split; [done|]. split.
  - intros Hk. apply (Himm Hk).
  - intros Hk. apply (Hmut Hk).
Qed.

Lemma len_is_live_witness :
  let S := final_state (run c7_prog init) in
  exists o, objs S !! 0 = Some o /\
    (KCFData = KCFData -> CFData.len 2 S = Ok S (cf_len o)) /\
    (KCFData = KCFMutableData -> CFMutableData.len 2 S = Ok S (cf_len o)).
Proof.
  intros S.
  apply (len_is_live S 2 (mkHandle KCFData 0 Live)).
  - exists c7_prog, (final_value (run c7_prog init) []). vm_compute. reflexivity.
  - vm_compute. reflexivity.
  - reflexivity.
Defined.

(** ** C8: byte views span exactly [len()] bytes *)

(** C8: in every reachable state, for every live handle, the views
    returned by [bytes()], [deref], and for a [CFMutableData] also
    [bytes_mut()] and [deref_mut], are the first [n] bytes of the foreign
    object's contiguous storage, where [n] is what [len()] returns at that
    moment; [n] never exceeds the storage, and the view has length exactly
    [n]. *)
Theorem bytes_span_len st h hd :
  reachable st -> handles st !! h = Some hd -> hstat hd = Live ->
  exists o n, objs st !! href hd = Some o /\ n <= length (storage o) /\
    length (take n (storage o)) = n /\
    (hkind hd = KCFData ->
       CFData.len h st = Ok st n /\
       CFData.bytes h st = Ok st (take n (storage o)) /\
       CFData.deref h st = Ok st (take n (storage o))) /\
    (hkind hd = KCFMutableData ->
       CFMutableData.len h st = Ok st n /\
       CFMutableData.bytes h st = Ok st (take n (storage o)) /\
       CFMutableData.deref h st = Ok st (take n (storage o)) /\
       CFMutableData.bytes_mut h st = Ok st (take n (storage o)) /\
       CFMutableData.deref_mut h st = Ok st (take n (storage o))).
Proof.
  intros Hr Hh HL. pose proof (reachable_wf _ Hr) as Hwf.
  destruct (read_spec st h hd Hwf Hh HL) as (o & Ho & Hlen & Himm & Hmut).
  exists o, (cf_len o). split; [done|]. split; [done|].
  split; [rewrite length_take; lia|]. split.
  - intros Hk. destruct (Himm Hk) as (Hl & Hb). unfold CF.contents in Hb.
    split; [done|]. split; [done|]. exact Hb.
  - intros Hk. destruct (Hmut Hk) as (_ & Hl & Hb & Hbm). unfold CF.contents in Hb, Hbm.
    split; [done|]. split; [done|]. split; [exact Hb|]. split; [done|]. exact Hbm.
Qed.

Lemma bytes_span_len_witness :
  let S := final_state (run c8_prog init) in
  exists o n, objs S !! 0 = Some o /\ n <= length (storage o) /\
    length (take n (storage o)) = n /\
    (KCFMutableData = KCFData ->
       CFData.len 0 S = Ok S n /\
       CFData.bytes 0 S = Ok S (take n (storage o)) /\
       CFData.deref 0 S = Ok S (take n (storage o))) /\
    (KCFMutableData = KCFMutableData ->
       CFMutableData.len 0 S = Ok S n /\
       CFMutableData.bytes 0 S = Ok S (take n (storage o)) /\
       CFMutableData.deref 0 S = Ok S (take n (storage o)) /\
       CFMutableData.bytes_mut 0 S = Ok S (take n (storage o)) /\
       CFMutableData.deref_mut 0 S = Ok S (take n (storage o))).
Proof.
  intros S.
  apply (bytes_span_len S 0 (mkHandle KCFMutableData 0 Live)).
  - exists c8_prog, (final_value (run c8_prog init) []). vm_compute. reflexivity.
  - vm_compute. reflexivity.
  - reflexivity.
Defined.

(** ** C9: maximum capacity *)

Lemma run_cons_fatal p ps st :
  exec p st = Fatal -> run (p :: ps) st = Fatal.
Proof. intros H. simpl. unfold bind. rewrite H. done. Qed.

Lemma run_cons_fatal_later p ps st st1 v :
  exec p st = Ok st1 v -> run ps st1 = Fatal -> run (p :: ps) st = Fatal.
Proof. intros H1 H2. simpl. unfold bind. rewrite H1, H2. done. Qed.

Lemma within_capacity_iff o n :
  CF.within_capacity o n = true <-> max_capacity o = 0 \/ n <= max_capacity o.
Proof.
  unfold CF.within_capacity. rewrite orb_true_iff, Nat.eqb_eq, Nat.leb_le. done.
Qed.

Lemma run_extends bs : forall st h hd o,
  wf st -> handles st !! h = Some hd -> hstat hd = Live -> hkind hd = KCFMutableData ->
  objs st !! href hd = Some o -> (max_capacity o = 0 \/ cf_len o <= max_capacity o) ->
  (max_capacity o <> 0 -> max_capacity o < cf_len o + total_len bs ->
     run (map (OExtend h) bs) st = Fatal) /\
  (max_capacity o = 0 \/ cf_len o + total_len bs <= max_capacity o ->
     exists st' vs o', run (map (OExtend h) bs) st = Ok st' vs /\
       handles st' = handles st /\
       objs st' !! href hd = Some o' /\ cf_len o' = cf_len o + total_len bs).
Proof.
  induction bs as [|b bs IH]; intros st h hd o Hwf Hh HL Hk Ho Hc;
    cbn [map total_len].
  - split; [intros; lia|]. intros _. exists st, [], o.
    split; [reflexivity|]. split; [done|]. split; [done|lia].
  - destruct (CF.within_capacity o (cf_len o + length b)) eqn:Ec.
    + pose proof (exec_extend_ok st h hd o b Hwf Hh HL Hk Ho Ec) as E.
      set (o1 := mkCFData (CF.contents o ++ b) (cf_len o + length b)
                          (max_capacity o) true (retain_count o)) in E.
      set (st1 := mkState _ _ _) in E.
      pose proof (exec_wf _ _ _ _ Hwf E) as Hwf1.
      assert (Ho1 : objs st1 !! href hd = Some o1).
      { simpl. rewrite list_lookup_insert_eq by eauto using lookup_lt_Some. done. }
      apply within_capacity_iff in Ec.
      destruct (IH st1 h hd o1 Hwf1 Hh HL Hk Ho1 ltac:(simpl; lia)) as (IHf & IHo).
      simpl in IHf, IHo. split.
      * intros Hn Hlt. apply (run_cons_fatal_later _ _ _ _ _ E). apply IHf; lia.
      * intros Hle. destruct (IHo ltac:(lia)) as (st' & vs & o' & Hrun & Hhs & Ho' & Hl).
        exists st', (VUnit :: vs), o'. split; [|split; [done|split; [done|lia]]].
        apply (run_cons_ok _ _ _ _ _ _ _ E Hrun).
    + pose proof (exec_extend_fatal st h hd o b Hwf Hh HL Hk Ho Ec) as E.
      split.
      * intros _ _. apply run_cons_fatal. exact E.
      * intros Hle. exfalso.
        assert (CF.within_capacity o (cf_len o + length b) = true)
          by (apply within_capacity_iff; lia).
        congruence.
Qed.

Lemma exec_with_max_cap_ok st n :
  (Z.of_nat n <= isize_MAX)%Z ->
  exec (OWithMaxCap n) st =
  Ok (mkState (objs st ++ [mkCFData [] 0 n true 1])
              (handles st ++ [mkHandle KCFMutableData (length (objs st)) Live])
              (releases st))
     (VHandle (length (handles st))).
Proof.
  intros Hn. unfold exec, CFMutableData.with_maximum_capacity, bind at 1 2.
  rewrite (to_CFIndex_in_range n st Hn). reflexivity.
Qed.

Lemma exec_with_max_cap_panic st n :
  (isize_MAX < Z.of_nat n)%Z -> exec (OWithMaxCap n) st = Panic.
Proof.
  intros Hn. unfold exec, CFMutableData.with_maximum_capacity, to_CFIndex, bind at 1 2.
  destruct (Z.leb_spec (Z.of_nat n) isize_MAX); [lia|]. reflexivity.
Qed.

Lemma run_cons_panic p ps st : exec p st = Panic -> run (p :: ps) st = Panic.
Proof. intros E. simpl. unfold bind at 1. rewrite E. reflexivity. Qed.

(** C9: for a buffer made by [with_maximum_capacity(n)] and any sequence
    of appends [extend_from_slice(b1)], ..., [extend_from_slice(bk)], where
    [n] is at most [isize::MAX] (above it, [with_maximum_capacity] panics in
    [to_CFIndex] and no buffer is made): when [n > 0] and the total appended
    length exceeds [n], the sequence ends in the fatal capacity condition;
    when [n = 0] (unbounded) or the total is at most [n] (in particular
    exactly [n]), every append succeeds and the buffer's length is the
    total. *)
Theorem with_maximum_capacity_bound n bs :
  ((isize_MAX < Z.of_nat n)%Z ->
     run (OWithMaxCap n :: map (OExtend 0) bs) init = Panic) /\
  ((Z.of_nat n <= isize_MAX)%Z -> 0 < n -> n < total_len bs ->
     run (OWithMaxCap n :: map (OExtend 0) bs) init = Fatal) /\
  ((Z.of_nat n <= isize_MAX)%Z -> n = 0 \/ total_len bs <= n ->
     exists st vs, run (OWithMaxCap n :: map (OExtend 0) bs) init = Ok st vs /\
       CFMutableData.len 0 st = Ok st (total_len bs)).
Proof.
  split; [intros Hn; apply run_cons_panic, exec_with_max_cap_panic, Hn|].
  set (o0 := mkCFData [] 0 n true 1).
  set (h0 := mkHandle KCFMutableData 0 Live).
  set (st0 := mkState [o0] [h0] []).
  split; intros Hrange;
    (assert (E0 : exec (OWithMaxCap n) init = Ok st0 (VHandle 0))
       by exact (exec_with_max_cap_ok init n Hrange));
    pose proof (exec_wf _ _ _ _ wf_init E0) as Hwf0;
    destruct (run_extends bs st0 0 h0 o0 Hwf0 eq_refl eq_refl eq_refl eq_refl
                ltac:(simpl; lia)) as (Hf & Ho);
    simpl in Hf, Ho.
  - intros Hn Hlt. apply (run_cons_fatal_later _ _ _ _ _ E0). apply Hf; lia.
  - intros Hle. destruct (Ho Hle) as (st' & vs & o' & Hrun & Hhs & Ho' & Hl).
    exists st', (VHandle 0 :: vs). split; [exact (run_cons_ok _ _ _ _ _ _ _ E0 Hrun)|].
    pose proof (run_wf _ _ _ _ Hwf0 Hrun) as Hwf'.
    assert (Hh : handles st' !! 0 = Some h0) by (rewrite Hhs; done).
    destruct (read_spec st' 0 h0 Hwf' Hh eq_refl) as (o1 & Ho1 & _ & _ & Hmut).
    simpl in Ho1. rewrite Ho' in Ho1. injection Ho1 as <-.
    destruct (Hmut eq_refl) as (_ & HL & _). rewrite HL, Hl. done.
Qed.

Lemma with_maximum_capacity_bound_witness :
  run (OWithMaxCap 2 :: map (OExtend 0) c9_bytes) init = Fatal /\
  exists st vs, run (OWithMaxCap 3 :: map (OExtend 0) c9_bytes) init = Ok st vs /\
    CFMutableData.len 0 st = Ok st 3.
Proof.
  split.
  - apply (proj1 (proj2 (with_maximum_capacity_bound 2 c9_bytes)));
      first [unfold isize_MAX; lia | vm_compute; lia].
  - apply (proj2 (proj2 (with_maximum_capacity_bound 3 c9_bytes))).
    + unfold isize_MAX. lia.
    + right. vm_compute. lia.
Defined.

Lemma extend_from_slice_appends_witness :
  let S := final_state (run c5_prog init) in
  exists st', CFMutableData.extend_from_slice 0 [Byte.x0b; Byte.x0c] S = Ok st' tt /\
    CFMutableData.bytes 0 st' = Ok st' ([Byte.x0a] ++ [Byte.x0b; Byte.x0c]) /\
    CFMutableData.len 0 st' = Ok st' (1 + length [Byte.x0b; Byte.x0c]).
Proof.
  intros S.
  apply (proj1 extend_from_slice_appends S 0 (mkHandle KCFMutableData 0 Live)
           [Byte.x0b; Byte.x0c] [Byte.x0a] 1).
  - exists c5_prog, (final_value (run c5_prog init) []). vm_compute. reflexivity.
  - vm_compute. reflexivity.
  - reflexivity.
  - reflexivity.
  - vm_compute. reflexivity.
  - vm_compute. reflexivity.
  - intros o Ho. vm_compute in Ho. injection Ho as <-. reflexivity.
Defined.

(** ** C10: reads leave the state unchanged *)

(** C10: each read operation ([len()], [bytes()] and [deref] of a [CFData]
    or of a [CFMutableData]) that returns normally, from any state, returns
    that very state: the foreign objects (their length, storage and
    reference counts), the handles and the release log are unchanged. *)
Theorem read_ops_frame o st st' v :
  is_read_op o = true -> exec o st = Ok st' v -> st' = st.
Proof.
  intros Hr H. destruct o; try discriminate; unfold_ops H; inv_ok; done.
Qed.

Lemma read_ops_frame_witness :
  let S := final_state (run c10_prog init) in
  let R := exec (ODataBytes 1) S in
  R = Ok (final_state R) (final_value R VUnit) /\ final_state R = S.
Proof.
  intros S R.
  assert (H : R = Ok (final_state R) (final_value R VUnit)) by (vm_compute; reflexivity).
  exact (conj H (read_ops_frame (ODataBytes 1) S _ _ eq_refl H)).
Defined.

(** ** Capacity invariant *)

Lemma cap_ok_insert os r o : cap_ok os -> obj_cap_ok o -> cap_ok (<[r:=o]> os).
Proof.
  intros H Ho r' o' E. destruct (decide (r = r')) as [->|Hne].
  - apply list_lookup_insert_Some in E as [(_ & <- & _)|(_ & E)]; [done|]. eauto.
  - rewrite list_lookup_insert_ne in E by done. eauto.
Qed.

Lemma cap_ok_snoc os o : cap_ok os -> obj_cap_ok o -> cap_ok (os ++ [o]).
Proof.
  intros H Ho r o' E. apply lookup_snoc_Some in E as [(_ & E)|(_ & <-)]; eauto.
Qed.

Lemma cap_ok_init : cap_ok (objs init).
Proof. intros r o E. unfold init in E. simpl in E. rewrite ?lookup_nil in E. discriminate. Qed.

Lemma exec_cap_ok o st st' v :
  cap_ok (objs st) -> exec o st = Ok st' v -> cap_ok (objs st').
Proof.
  intros Hc H. destruct o; unfold_ops H; inv_ok; simpl; try done.
  all: try (apply cap_ok_snoc; [done|]; unfold obj_cap_ok; simpl; lia).
  all: apply cap_ok_insert; [done|]; unfold obj_cap_ok; simpl.
  all: rewrite ?negb_false_iff, ?within_capacity_iff in *; try done.
  all: match goal with H : objs _ !! _ = Some ?o |- _ => apply (Hc _ _ H) end.
Qed.

Lemma run_cap_ok ps st st' vs :
  cap_ok (objs st) -> run ps st = Ok st' vs -> cap_ok (objs st').
Proof.
  revert st st' vs. induction ps as [|p ps IH]; intros st st' vs Hc H; simpl in H.
  - unfold ret in H. injection H as <- _. done.
  - inv_ok. eapply IH; [|eassumption]. eapply exec_cap_ok; eassumption.
Qed.

Lemma reachable_cap_ok st : reachable st -> cap_ok (objs st).
Proof. intros (ps & vs & H). exact (run_cap_ok _ _ _ _ cap_ok_init H). Qed.

(** ** Immutable objects never change *)

Lemma frozen_refl os : frozen os os.
Proof. intros r o E Hm. exists o. done. Qed.

Lemma frozen_trans os1 os2 os3 : frozen os1 os2 -> frozen os2 os3 -> frozen os1 os3.
Proof.
  intros H12 H23 r o E Hm. destruct (H12 r o E Hm) as (o2 & E2 & Hs2 & Hl2 & Hm2).
  destruct (H23 r o2 E2 Hm2) as (o3 & E3 & Hs3 & Hl3 & Hm3).
  exists o3. split; [done|]. split; [congruence|]. split; [congruence|done].
Qed.

Lemma frozen_snoc os o : frozen os (os ++ [o]).
Proof.
  intros r o' E Hm. exists o'. split; [|done]. apply lookup_app_l_Some. done.
Qed.

Lemma frozen_insert os r o o' :
  os !! r = Some o ->
  (is_mutable o = false ->
     storage o' = storage o /\ cf_len o' = cf_len o /\ is_mutable o' = false) ->
  frozen os (<[r:=o']> os).
Proof.
  intros E Hk r' o1 E1 Hm. destruct (decide (r = r')) as [<-|Hne].
  - rewrite E in E1. injection E1 as <-. exists o'.
    rewrite list_lookup_insert_eq by eauto using lookup_lt_Some. auto.
  - exists o1. rewrite list_lookup_insert_ne by done. done.
Qed.

Lemma exec_frozen o st st' v : exec o st = Ok st' v -> frozen (objs st) (objs st').
Proof.
  intros H. destruct o; unfold_ops H; inv_ok; simpl.
  all: try apply frozen_refl.
  all: try apply frozen_snoc.
  all: eapply frozen_insert; [eassumption|]; simpl; intros Hm; try done.
  all: rewrite Hm in *; discriminate.
Qed.

Lemma run_frozen ps st st' vs : run ps st = Ok st' vs -> frozen (objs st) (objs st').
Proof.
  revert st st' vs. induction ps as [|p ps IH]; intros st st' vs H; simpl in H.
  - unfold ret in H. injection H as <- _. apply frozen_refl.
  - inv_ok. eapply frozen_trans; [eapply exec_frozen|eapply IH]; eassumption.
Qed.

(** ** Without [clone], owned handles never share a foreign object *)

Lemma live_ref_lt st i hd :
  wf st -> handles st !! i = Some hd -> hstat hd = Live -> href hd < length (objs st).
Proof.
  intros Hwf Hi HL. destruct (wf_live _ Hwf i hd Hi HL) as (o & Ho & _).
  eauto using lookup_lt_Some.
Qed.

Lemma exclusive_snoc hs k r :
  exclusive hs ->
  (forall i hd, hs !! i = Some hd -> hstat hd = Live -> href hd <> r) ->
  exclusive (hs ++ [mkHandle k r Live]).
Proof.
  intros Hx Hf i j hi hj Hij Hi Hj Li Lj.
  apply lookup_snoc_Some in Hi as [(_ & Hi)|(Ei & <-)];
  apply lookup_snoc_Some in Hj as [(_ & Hj)|(Ej & <-)]; simpl.
  - exact (Hx i j hi hj Hij Hi Hj Li Lj).
  - exact (Hf i hi Hi Li).
  - intros E. exact (Hf j hj Hj Lj (eq_sym E)).
  - lia.
Qed.

Lemma exclusive_insert_dead hs i k r s :
  exclusive hs -> s <> Live -> exclusive (<[i:=mkHandle k r s]> hs).
Proof.
  intros Hx Hs a b ha hb Hab Ha Hb La Lb.
  apply list_lookup_insert_Some in Ha as [(_ & <- & _)|(_ & Ha)]; [done|].
  apply list_lookup_insert_Some in Hb as [(_ & <- & _)|(_ & Hb)]; [done|].
  eauto.
Qed.

Lemma exclusive_init : exclusive (handles init).
Proof. intros i j hi hj _ Hi. unfold init in Hi. simpl in Hi. rewrite ?lookup_nil in Hi. discriminate. Qed.

Lemma exec_exclusive o st st' v :
  wf st -> exclusive (handles st) -> is_clone o = false ->
  exec o st = Ok st' v -> exclusive (handles st').
Proof.
  intros Hwf Hx Hc H. destruct o; simpl in Hc; try discriminate; unfold_ops H; inv_ok; simpl;
    repeat match goal with
    | H1 : handles ?s !! ?h = Some ?x, H2 : handles ?s !! ?h = Some ?y |- _ =>
        rewrite H1 in H2; injection H2 as <-
    | H : handles ?s !! ?h = Some _ |- context [handles ?s !! ?h] => rewrite H
    end.
  all: try done.
  all: try (apply exclusive_snoc; [done|]; intros i hd Hi HL;
            pose proof (live_ref_lt st i hd Hwf Hi HL); lia).
  all: try (apply exclusive_insert_dead; [done|discriminate]).
  (* into_immutable *)
  apply exclusive_snoc; [apply exclusive_insert_dead; [done|discriminate]|].
  intros j hj Hj Lj.
  apply list_lookup_insert_Some in Hj as [(_ & <- & _)|(Hne & Hj)]; [discriminate Lj|].
  simpl. exact (Hx j h hj hd (not_eq_sym Hne) Hj H Lj H2).
Qed.

Lemma run_exclusive ps st st' vs :
  wf st -> exclusive (handles st) -> existsb is_clone ps = false ->
  run ps st = Ok st' vs -> exclusive (handles st').
Proof.
  revert st st' vs. induction ps as [|p ps IH]; intros st st' vs Hwf Hx Hc H; simpl in H, Hc.
  - unfold ret in H. injection H as <- _. done.
  - apply orb_false_iff in Hc as [Hc1 Hc2]. inv_ok.
    eapply IH; [| |exact Hc2|eassumption].
    + eapply exec_wf; eassumption.
    + eapply exec_exclusive; eassumption.
Qed.

(** ** Object-level effect of the mutators *)

Lemma mut_reads st h hd o :
  wf st -> handles st !! h = Some hd -> hstat hd = Live -> hkind hd = KCFMutableData ->
  objs st !! href hd = Some o ->
  CFMutableData.len h st = Ok st (cf_len o) /\
  CFMutableData.bytes h st = Ok st (CF.contents o).
Proof.
  intros Hwf Hh HL Hk Ho.
  destruct (read_spec st h hd Hwf Hh HL) as (o1 & Ho1 & _ & _ & Hmut).
  rewrite Ho in Ho1. injection Ho1 as <-. destruct (Hmut Hk) as (_ & Hl & Hb & _). done.
Qed.

Lemma extend_observe st h hd o b :
  wf st -> handles st !! h = Some hd -> hstat hd = Live -> hkind hd = KCFMutableData ->
  objs st !! href hd = Some o -> CF.within_capacity o (cf_len o + length b) = true ->
  exists st' o', CFMutableData.extend_from_slice h b st = Ok st' tt /\
    exec (OExtend h b) st = Ok st' VUnit /\
    objs st' !! href hd = Some o' /\ max_capacity o' = max_capacity o /\
    retain_count o' = retain_count o /\
    cf_len o' = cf_len o + length b /\ CF.contents o' = CF.contents o ++ b /\
    handles st' = handles st /\ releases st' = releases st /\
    (forall r, r <> href hd -> objs st' !! r = objs st !! r).
Proof.
  intros Hwf Hh HL Hk Ho Hc. pose proof (wf_len _ Hwf _ _ Ho) as Hlen.
  pose proof (extend_spec st h hd o b Hwf Hh HL Hk Ho) as E. rewrite Hc in E.
  eexists _, _. split; [exact E|]. split; [unfold exec, bind at 1; rewrite E; reflexivity|].
  simpl. split; [apply list_lookup_insert_eq; eauto using lookup_lt_Some|].
  split; [done|]. split; [done|]. split; [done|]. split.
  - unfold CF.contents at 1. simpl.
    apply take_ge. rewrite length_app, contents_length; lia.
  - split; [done|]. split; [done|]. intros r Hr. apply list_lookup_insert_ne. done.
Qed.

Lemma set_len_observe st h hd o n :
  wf st -> handles st !! h = Some hd -> hstat hd = Live -> hkind hd = KCFMutableData ->
  objs st !! href hd = Some o -> CF.within_capacity o n = true ->
  (Z.of_nat n <= isize_MAX)%Z ->
  exists st' o', CFMutableData.set_len h n st = Ok st' tt /\
    exec (OSetLen h n) st = Ok st' VUnit /\
    objs st' !! href hd = Some o' /\ max_capacity o' = max_capacity o /\
    retain_count o' = retain_count o /\ cf_len o' = n /\
    CF.contents o' = (if n <=? cf_len o then take n (CF.contents o)
                      else CF.contents o ++ repeat Byte.x00 (n - cf_len o)) /\
    handles st' = handles st /\ releases st' = releases st /\
    (forall r, r <> href hd -> objs st' !! r = objs st !! r).
Proof.
  intros Hwf Hh HL Hk Ho Hc Hrange. pose proof (wf_len _ Hwf _ _ Ho) as Hlen.
  pose proof (set_len_spec st h hd o n Hwf Hh HL Hk Ho Hrange) as E. rewrite Hc in E.
  eexists _, _. split; [exact E|]. split; [unfold exec, bind at 1; rewrite E; reflexivity|].
  simpl. split; [apply list_lookup_insert_eq; eauto using lookup_lt_Some|].
  destruct (n <=? cf_len o) eqn:En; simpl.
  - apply Nat.leb_le in En.
    split; [done|]. split; [done|]. split; [done|]. split.
    + unfold CF.contents. simpl. rewrite take_take. f_equal. lia.
    + split; [done|]. split; [done|]. intros r Hr. apply list_lookup_insert_ne. done.
  - apply Nat.leb_gt in En.
    split; [done|]. split; [done|]. split; [done|]. split.
    + unfold CF.contents at 1. simpl. apply take_ge.
      rewrite length_app, repeat_length, contents_length; lia.
    + split; [done|]. split; [done|]. intros r Hr. apply list_lookup_insert_ne. done.
Qed.

(** ** Properties of the code beyond the claims *)

(** [extend_from_slice(b1)] followed by [extend_from_slice(b2)] on an owned
    [CFMutableData] of a reachable state is the same computation as
    [extend_from_slice(b1 ++ b2)]: same final state when the buffer has
    room, and the fatal capacity condition in both otherwise. *)
Theorem extend_from_slice_twice st h hd b1 b2 :
  reachable st -> handles st !! h = Some hd -> hstat hd = Live ->
  hkind hd = KCFMutableData ->
  (let* _ := CFMutableData.extend_from_slice h b1 in
   CFMutableData.extend_from_slice h b2) st =
  CFMutableData.extend_from_slice h (b1 ++ b2) st.
Proof.
  intros Hr Hh HL Hk. pose proof (reachable_wf _ Hr) as Hwf.
  destruct (live_has_object st h hd Hwf Hh HL) as (o & Ho & _ & _).
  pose proof (wf_len _ Hwf _ _ Ho) as Hlen.
  rewrite (extend_spec st h hd o (b1 ++ b2) Hwf Hh HL Hk Ho).
  unfold bind at 1. rewrite (extend_spec st h hd o b1 Hwf Hh HL Hk Ho).
  set (o1 := mkCFData (CF.contents o ++ b1) (cf_len o + length b1) (max_capacity o) true
                      (retain_count o)).
  assert (Hc1 : CF.within_capacity o1 (cf_len o1 + length b2) =
                CF.within_capacity o (cf_len o + length (b1 ++ b2))).
  { unfold CF.within_capacity. simpl. rewrite length_app, Nat.add_assoc. done. }
  destruct (CF.within_capacity o (cf_len o + length b1)) eqn:C1.
  - set (st1 := mkState (<[href hd:=o1]> (objs st)) (handles st) (releases st)).
    assert (E1 : exec (OExtend h b1) st = Ok st1 VUnit)
      by (unfold exec, bind at 1; rewrite (extend_spec st h hd o b1 Hwf Hh HL Hk Ho), C1;
          reflexivity).
    pose proof (exec_wf _ _ _ _ Hwf E1) as Hwf1.
    assert (Ho1 : objs st1 !! href hd = Some o1)
      by (apply list_lookup_insert_eq; eauto using lookup_lt_Some).
    rewrite (extend_spec st1 h hd o1 b2 Hwf1 Hh HL Hk Ho1), Hc1.
    destruct (CF.within_capacity o (cf_len o + length (b1 ++ b2))); [|done].
    unfold st1. simpl. rewrite list_insert_insert_eq.
    assert (Ec : CF.contents o1 = CF.contents o ++ b1).
    { unfold CF.contents at 1. simpl. apply take_ge. rewrite length_app, contents_length; lia. }
    rewrite Ec, <- app_assoc, length_app, Nat.add_assoc. done.
  - destruct (CF.within_capacity o (cf_len o + length (b1 ++ b2))) eqn:C; [|done].
    apply within_capacity_iff in C. rewrite length_app in C.
    assert (CF.within_capacity o (cf_len o + length b1) = true)
      by (apply within_capacity_iff; lia).
    congruence.
Qed.

Lemma cap_within st r o n :
  cap_ok (objs st) -> objs st !! r = Some o -> n <= cf_len o ->
  CF.within_capacity o n = true.
Proof.
  intros Hc Ho Hn. apply within_capacity_iff. destruct (Hc r o Ho) as [E|E]; [left|right]; lia.
Qed.

(** [extend_from_slice(&[])] on an owned [CFMutableData] of a reachable
    state always returns normally, even on a bounded buffer, and leaves
    [len()] and [bytes()] as they were. *)
Theorem extend_from_slice_empty st h hd n bs :
  reachable st -> handles st !! h = Some hd -> hstat hd = Live ->
  hkind hd = KCFMutableData ->
  CFMutableData.len h st = Ok st n -> CFMutableData.bytes h st = Ok st bs ->
  exists st', CFMutableData.extend_from_slice h [] st = Ok st' tt /\
    CFMutableData.len h st' = Ok st' n /\ CFMutableData.bytes h st' = Ok st' bs.
Proof.
  intros Hr Hh HL Hk Hn Hb. pose proof (reachable_wf _ Hr) as Hwf.
  pose proof (reachable_cap_ok _ Hr) as Hc.
  destruct (live_has_object st h hd Hwf Hh HL) as (o & Ho & _ & _).
  destruct (mut_reads st h hd o Hwf Hh HL Hk Ho) as (Hn0 & Hb0).
  rewrite Hn in Hn0. injection Hn0 as ->. rewrite Hb in Hb0. injection Hb0 as ->.
  destruct (extend_observe st h hd o [] Hwf Hh HL Hk Ho
              (cap_within st (href hd) o (cf_len o + length (@nil u8)) Hc Ho ltac:(simpl; lia)))
    as (st' & o' & E & Ex & Ho' & _ & _ & Hl' & Hc' & Hh' & _).
  pose proof (exec_wf _ _ _ _ Hwf Ex) as Hwf'.
  rewrite <- Hh' in Hh.
  destruct (mut_reads st' h hd o' Hwf' Hh HL Hk Ho') as (Hn' & Hb').
  exists st'. rewrite Hn', Hb', Hl', Hc', app_nil_r. simpl. rewrite Nat.add_0_r. done.
Qed.

(** [set_len(n)] with [n] at most [len()] (and at most [isize::MAX], as
    every length [len()] reports is a [CFIndex]) on an owned
    [CFMutableData] of a reachable state always returns normally, whatever
    the buffer's maximum capacity, and leaves the first [n] bytes, with
    length [n]. *)
Theorem set_len_truncate_total st h hd n bs :
  reachable st -> handles st !! h = Some hd -> hstat hd = Live ->
  hkind hd = KCFMutableData -> CFMutableData.bytes h st = Ok st bs ->
  n <= length bs -> (Z.of_nat n <= isize_MAX)%Z ->
  exists st', CFMutableData.set_len h n st = Ok st' tt /\
    CFMutableData.len h st' = Ok st' n /\ CFMutableData.bytes h st' = Ok st' (take n bs).
Proof.
  intros Hr Hh HL Hk Hb Hn Hrange. pose proof (reachable_wf _ Hr) as Hwf.
  pose proof (reachable_cap_ok _ Hr) as Hc.
  destruct (live_has_object st h hd Hwf Hh HL) as (o & Ho & _ & _).
  pose proof (wf_len _ Hwf _ _ Ho) as Hlen.
  destruct (mut_reads st h hd o Hwf Hh HL Hk Ho) as (_ & Hb0).
  rewrite Hb in Hb0. injection Hb0 as ->. rewrite contents_length in Hn by done.
  destruct (set_len_observe st h hd o n Hwf Hh HL Hk Ho (cap_within st _ o _ Hc Ho Hn) Hrange)
    as (st' & o' & E & Ex & Ho' & _ & _ & Hl' & Hc' & Hh' & _).
  pose proof (exec_wf _ _ _ _ Hwf Ex) as Hwf'.
  rewrite <- Hh' in Hh.
  destruct (mut_reads st' h hd o' Hwf' Hh HL Hk Ho') as (Hn' & Hb').
  apply Nat.leb_le in Hn. rewrite Hn in Hc'.
  exists st'. rewrite Hn', Hb', Hl', Hc'. done.
Qed.

(** On an owned [CFMutableData] of a reachable state with length [n] and
    bytes [bs], [extend_from_slice(b)] followed by [set_len(n)] restores
    length [n] and bytes [bs], when the buffer has room for [n + length b]
    bytes and [n] is at most [isize::MAX] (as every length [len()] reports
    is a [CFIndex]). *)
Theorem extend_then_set_len_restores st h hd b n bs :
  reachable st -> handles st !! h = Some hd -> hstat hd = Live ->
  hkind hd = KCFMutableData ->
  CFMutableData.len h st = Ok st n -> CFMutableData.bytes h st = Ok st bs ->
  (forall o, objs st !! href hd = Some o -> CF.within_capacity o (n + length b) = true) ->
  (Z.of_nat n <= isize_MAX)%Z ->
  exists st1 st2, CFMutableData.extend_from_slice h b st = Ok st1 tt /\
    CFMutableData.set_len h n st1 = Ok st2 tt /\
    CFMutableData.len h st2 = Ok st2 n /\ CFMutableData.bytes h st2 = Ok st2 bs.
Proof.
  intros Hr Hh HL Hk Hn Hb Hcap Hrange. pose proof (reachable_wf _ Hr) as Hwf.
  destruct (live_has_object st h hd Hwf Hh HL) as (o & Ho & _ & _).
  pose proof (wf_len _ Hwf _ _ Ho) as Hlen.
  destruct (mut_reads st h hd o Hwf Hh HL Hk Ho) as (Hn0 & Hb0).
  rewrite Hn in Hn0. injection Hn0 as ->. rewrite Hb in Hb0. injection Hb0 as ->.
  pose proof (Hcap o Ho) as Hc.
  destruct (extend_observe st h hd o b Hwf Hh HL Hk Ho Hc)
    as (st1 & o1 & E1 & Ex1 & Ho1 & Hm1 & _ & Hl1 & Hc1 & Hh1 & _).
  pose proof (exec_wf _ _ _ _ Hwf Ex1) as Hwf1.
  rewrite <- Hh1 in Hh.
  assert (Hw : CF.within_capacity o1 (cf_len o) = true).
  { apply within_capacity_iff in Hc. apply within_capacity_iff. rewrite Hm1. lia. }
  destruct (set_len_observe st1 h hd o1 (cf_len o) Hwf1 Hh HL Hk Ho1 Hw Hrange)
    as (st2 & o2 & E2 & Ex2 & Ho2 & _ & _ & Hl2 & Hc2 & Hh2 & _).
  pose proof (exec_wf _ _ _ _ Hwf1 Ex2) as Hwf2.
  rewrite <- Hh2 in Hh.
  destruct (mut_reads st2 h hd o2 Hwf2 Hh HL Hk Ho2) as (Hn2 & Hb2).
  exists st1, st2. split; [done|]. split; [done|].
  rewrite Hn2, Hb2, Hl2, Hc2, Hl1.
  replace (cf_len o <=? cf_len o + length b) with true by (symmetry; apply Nat.leb_le; lia).
  rewrite Hc1, take_app_length' by (rewrite contents_length; lia). done.
Qed.

(** On an owned [CFMutableData] of a reachable state with bytes [bs],
    [set_len(k)] with [k] at most [length bs] followed by [set_len(n)] with
    [n >= k] leaves the first [k] bytes of [bs] followed by [n - k] zero
    bytes: the bytes cut off by the truncation do not come back. This holds
    whenever the buffer's maximum capacity admits [n] (capacity 0, i.e.
    unbounded, or [n] at most the capacity) and [n] is at most
    [isize::MAX]. *)
Theorem set_len_truncate_then_grow st h hd bs k n :
  reachable st -> handles st !! h = Some hd -> hstat hd = Live ->
  hkind hd = KCFMutableData -> CFMutableData.bytes h st = Ok st bs ->
  k <= length bs -> k <= n ->
  (forall o, objs st !! href hd = Some o -> CF.within_capacity o n = true) ->
  (Z.of_nat n <= isize_MAX)%Z ->
  exists st1 st2, CFMutableData.set_len h k st = Ok st1 tt /\
    CFMutableData.set_len h n st1 = Ok st2 tt /\
    CFMutableData.len h st2 = Ok st2 n /\
    CFMutableData.bytes h st2 = Ok st2 (take k bs ++ repeat Byte.x00 (n - k)).
Proof.
  intros Hr Hh HL Hk Hb Hkb Hkn Hcap Hrange. pose proof (reachable_wf _ Hr) as Hwf.
  pose proof (reachable_cap_ok _ Hr) as Hcp.
  destruct (live_has_object st h hd Hwf Hh HL) as (o & Ho & _ & _).
  pose proof (wf_len _ Hwf _ _ Ho) as Hlen.
  destruct (mut_reads st h hd o Hwf Hh HL Hk Ho) as (_ & Hb0).
  rewrite Hb in Hb0. injection Hb0 as ->. rewrite contents_length in Hkb by done.
  destruct (set_len_observe st h hd o k Hwf Hh HL Hk Ho (cap_within st _ o _ Hcp Ho Hkb)
                ltac:(lia))
    as (st1 & o1 & E1 & Ex1 & Ho1 & Hm1 & _ & Hl1 & Hc1 & Hh1 & _).
  pose proof (exec_wf _ _ _ _ Hwf Ex1) as Hwf1.
  rewrite <- Hh1 in Hh.
  assert (Hw : CF.within_capacity o1 n = true).
  { pose proof (Hcap o Ho) as Hc. apply within_capacity_iff in Hc.
    apply within_capacity_iff. rewrite Hm1. done. }
  destruct (set_len_observe st1 h hd o1 n Hwf1 Hh HL Hk Ho1 Hw Hrange)
    as (st2 & o2 & E2 & Ex2 & Ho2 & _ & _ & Hl2 & Hc2 & Hh2 & _).
  pose proof (exec_wf _ _ _ _ Hwf1 Ex2) as Hwf2.
  rewrite <- Hh2 in Hh.
  destruct (mut_reads st2 h hd o2 Hwf2 Hh HL Hk Ho2) as (Hn2 & Hb2).
  exists st1, st2. split; [done|]. split; [done|].
  rewrite Hn2, Hb2, Hl2, Hc2, Hc1, Hl1.
  replace (k <=? cf_len o) with true by (symmetry; apply Nat.leb_le; lia).
  destruct (n <=? k) eqn:Enk.
  - apply Nat.leb_le in Enk. replace n with k by lia.
    rewrite take_take, Nat.min_id, Nat.sub_diag, app_nil_r. done.
  - done.
Qed.

(** ** Handle references and capacities are never changed *)

Lemma refs_kept_refl hs : refs_kept hs hs.
Proof. intros i hd E. exists hd. done. Qed.

Lemma refs_kept_trans a b c : refs_kept a b -> refs_kept b c -> refs_kept a c.
Proof.
  intros Hab Hbc i hd E. destruct (Hab i hd E) as (hd1 & E1 & K1 & R1).
  destruct (Hbc i hd1 E1) as (hd2 & E2 & K2 & R2). exists hd2. split; [done|]. split; congruence.
Qed.

Lemma refs_kept_snoc hs x : refs_kept hs (hs ++ [x]).
Proof. intros i hd E. exists hd. split; [|done]. apply lookup_app_l_Some. done. Qed.

Lemma refs_kept_insert hs i hd s :
  hs !! i = Some hd -> refs_kept hs (<[i:=mkHandle (hkind hd) (href hd) s]> hs).
Proof.
  intros E j hj Ej. destruct (decide (i = j)) as [<-|Hne].
  - rewrite E in Ej. injection Ej as <-. exists (mkHandle (hkind hd) (href hd) s).
    split; [|done]. apply list_lookup_insert_eq. eauto using lookup_lt_Some.
  - exists hj. rewrite list_lookup_insert_ne by done. done.
Qed.

Lemma exec_refs_kept o st st' v : exec o st = Ok st' v -> refs_kept (handles st) (handles st').
Proof.
  intros H. destruct o; unfold_ops H; inv_ok; simpl;
    repeat match goal with
    | H1 : handles ?s !! ?h = Some ?x, H2 : handles ?s !! ?h = Some ?y |- _ =>
        rewrite H1 in H2; injection H2 as <-
    | H : handles ?s !! ?h = Some _ |- context [handles ?s !! ?h] => rewrite H
    end.
  all: try apply refs_kept_refl.
  all: try apply refs_kept_snoc.
  all: try (apply refs_kept_insert; done).
  eapply refs_kept_trans; [apply refs_kept_insert; eassumption|apply refs_kept_snoc].
Qed.

Lemma run_refs_kept ps st st' vs : run ps st = Ok st' vs -> refs_kept (handles st) (handles st').
Proof.
  revert st st' vs. induction ps as [|p ps IH]; intros st st' vs H; simpl in H.
  - unfold ret in H. injection H as <- _. apply refs_kept_refl.
  - inv_ok. eapply refs_kept_trans; [eapply exec_refs_kept|eapply IH]; eassumption.
Qed.

Lemma caps_kept_refl os : caps_kept os os.
Proof. intros r o E. exists o. done. Qed.

Lemma caps_kept_trans a b c : caps_kept a b -> caps_kept b c -> caps_kept a c.
Proof.
  intros Hab Hbc r o E. destruct (Hab r o E) as (o1 & E1 & C1).
  destruct (Hbc r o1 E1) as (o2 & E2 & C2). exists o2. split; [done|]. congruence.
Qed.

Lemma caps_kept_snoc os x : caps_kept os (os ++ [x]).
Proof. intros r o E. exists o. split; [|done]. apply lookup_app_l_Some. done. Qed.

Lemma caps_kept_insert os r o o' :
  os !! r = Some o -> max_capacity o' = max_capacity o -> caps_kept os (<[r:=o']> os).
Proof.
  intros E Hm r' o1 E1. destruct (decide (r = r')) as [<-|Hne].
  - rewrite E in E1. injection E1 as <-. exists o'.
    rewrite list_lookup_insert_eq by eauto using lookup_lt_Some. done.
  - exists o1. rewrite list_lookup_insert_ne by done. done.
Qed.

Lemma exec_caps_kept o st st' v : exec o st = Ok st' v -> caps_kept (objs st) (objs st').
Proof.
  intros H. destruct o; unfold_ops H; inv_ok; simpl.
  all: try apply caps_kept_refl.
  all: try apply caps_kept_snoc.
  all: eapply caps_kept_insert; [eassumption|done].
Qed.

Lemma run_caps_kept ps st st' vs : run ps st = Ok st' vs -> caps_kept (objs st) (objs st').
Proof.
  revert st st' vs. induction ps as [|p ps IH]; intros st st' vs H; simpl in H.
  - unfold ret in H. injection H as <- _. apply caps_kept_refl.
  - inv_ok. eapply caps_kept_trans; [eapply exec_caps_kept|eapply IH]; eassumption.
Qed.

(** [extend_from_slice] and [set_len] through an owned [CFMutableData] of a
    reachable state, when they return, change nothing but the bytes and
    length of that handle's own buffer: every other foreign object, every
    handle value, the release log, and the buffer's own retain count and
    maximum capacity are as before. *)
Theorem mutators_frame st h hd :
  reachable st -> handles st !! h = Some hd -> hstat hd = Live ->
  hkind hd = KCFMutableData ->
  exists o, objs st !! href hd = Some o /\
    (forall b st' u, CFMutableData.extend_from_slice h b st = Ok st' u ->
       frame_only st st' (href hd) o) /\
    (forall n st' u, CFMutableData.set_len h n st = Ok st' u ->
       frame_only st st' (href hd) o).
Proof.
  intros Hr Hh HL Hk. pose proof (reachable_wf _ Hr) as Hwf.
  destruct (live_has_object st h hd Hwf Hh HL) as (o & Ho & _ & _).
  exists o. split; [done|]. split.
  - intros b st' u E.
    destruct (CF.within_capacity o (cf_len o + length b)) eqn:Hc.
    + destruct (extend_observe st h hd o b Hwf Hh HL Hk Ho Hc)
        as (st1 & o1 & E1 & _ & Ho1 & Hm1 & Hrc1 & _ & _ & Hh1 & Hrel1 & Hoth1).
      rewrite E1 in E. injection E as <- _.
      split; [done|]. split; [done|]. split; [done|]. exists o1. done.
    + rewrite (extend_spec st h hd o b Hwf Hh HL Hk Ho), Hc in E. discriminate.
  - intros n st' u E.
    destruct (Z.le_gt_cases (Z.of_nat n) isize_MAX) as [Hrange|Hrange];
      [|rewrite (set_len_panic st h hd n Hh HL Hk Hrange) in E; discriminate].
    destruct (CF.within_capacity o n) eqn:Hc.
    + destruct (set_len_observe st h hd o n Hwf Hh HL Hk Ho Hc Hrange)
        as (st1 & o1 & E1 & _ & Ho1 & Hm1 & Hrc1 & _ & _ & Hh1 & Hrel1 & Hoth1).
      rewrite E1 in E. injection E as <- _.
      split; [done|]. split; [done|]. split; [done|]. exists o1. done.
    + rewrite (set_len_spec st h hd o n Hwf Hh HL Hk Ho Hrange), Hc in E. discriminate.
Qed.

(** A [CFMutableData] made by [with_maximum_capacity(n)] with [n > 0] from a
    reachable state never reports a length above [n]: after any sequence of
    operations that returns, [len()] on it is at most [n]. *)
Theorem with_maximum_capacity_len_bound st n h st1 ps st2 vs m :
  reachable st -> 0 < n ->
  CFMutableData.with_maximum_capacity n st = Ok st1 h ->
  run ps st1 = Ok st2 vs -> CFMutableData.len h st2 = Ok st2 m -> m <= n.
Proof.
  intros Hr Hn Hc Hrun Hlen.
  assert (Ex : exec (OWithMaxCap n) st = Ok st1 (VHandle h))
    by (unfold exec, bind at 1; rewrite Hc; reflexivity).
  pose proof (run_cap_ok _ _ _ _ (exec_cap_ok _ _ _ _ (reachable_cap_ok _ Hr) Ex) Hrun) as Hcap.
  unfold CFMutableData.with_maximum_capacity in Hc.
  apply bind_ok in Hc as (st0 & c & Ht & Hc).
  apply to_CFIndex_ok in Ht as (-> & -> & _).
  unfold CF.CFDataCreateMutable, CF.alloc_obj, wrap_under_create_rule, new_handle, bind in Hc.
  simpl in Hc. injection Hc as <- <-.
  destruct (run_refs_kept _ _ _ _ Hrun (length (handles st))
              (mkHandle KCFMutableData (length (objs st)) Live))
    as (hd2 & Eh2 & _ & Rh2).
  { simpl. apply list_lookup_middle. done. }
  destruct (run_caps_kept _ _ _ _ Hrun (length (objs st)) (mkCFData [] 0 n true 1))
    as (o2 & Eo2 & Co2).
  { simpl. apply list_lookup_middle. done. }
  unfold CFMutableData.len, CF.CFDataGetLength in Hlen. inv_ok.
  match goal with H : CF.lookup_obj _ _ = Ok _ _ |- _ =>
    apply lookup_obj_ok in H as (_ & Eo & _) end.
  match goal with H : handles _ !! _ = Some ?x, H' : hstat ?x = Live |- _ =>
    rewrite Eh2 in H; injection H as <- end.
  simpl in Rh2, Co2. rewrite Rh2, Eo2 in Eo. injection Eo as <-.
  destruct (Hcap _ _ Eo2) as [E|E]; lia.
Qed.

(** A [CFData] made by [from_buffer(b)] keeps length [length b] and bytes
    [b] for good: after any sequence of operations that returns, [len()] on
    it returns [length b] and [bytes()] returns [b]. No operation of the
    module changes an immutable buffer. *)
Theorem from_buffer_never_changes st b h st1 ps st2 vs :
  CFData.from_buffer b st = Ok st1 h -> run ps st1 = Ok st2 vs ->
  (forall m, CFData.len h st2 = Ok st2 m -> m = length b) /\
  (forall bs, CFData.bytes h st2 = Ok st2 bs -> bs = b).
Proof.
  intros Hc Hrun.
  unfold CFData.from_buffer, CF.CFDataCreate, CF.alloc_obj,
    wrap_under_create_rule, new_handle, bind in Hc.
  rewrite Nat.leb_refl in Hc. simpl in Hc. injection Hc as <- <-.
  destruct (run_refs_kept _ _ _ _ Hrun (length (handles st))
              (mkHandle KCFData (length (objs st)) Live))
    as (hd2 & Eh2 & _ & Rh2).
  { simpl. apply list_lookup_middle. done. }
  destruct (run_frozen _ _ _ _ Hrun (length (objs st))
              (mkCFData (take (length b) b) (length b) (length b) false 1))
    as (o2 & Eo2 & So2 & Lo2 & _).
  { simpl. apply list_lookup_middle. done. }
  { done. }
  simpl in So2, Lo2, Rh2.
  split.
  - intros m Hlen. unfold CFData.len, CF.CFDataGetLength in Hlen. inv_ok.
    match goal with H : CF.lookup_obj _ _ = Ok _ _ |- _ =>
      apply lookup_obj_ok in H as (_ & Eo & _) end.
    match goal with H : handles _ !! _ = Some ?x, H' : hstat ?x = Live |- _ =>
      rewrite Eh2 in H; injection H as <- end.
    rewrite Rh2, Eo2 in Eo. injection Eo as <-. done.
  - intros bs Hb. unfold CFData.bytes, CFData.len, CF.CFDataGetBytePtr,
      CF.CFDataGetLength, slice_from_raw_parts in Hb. inv_ok.
    repeat match goal with
    | H : CF.lookup_obj _ _ = Ok _ _ |- _ =>
        let Eo := fresh "Eo" in apply lookup_obj_ok in H as (_ & Eo & _)
    | H : handles _ !! _ = Some ?x, H' : hstat ?x = Live |- _ =>
        rewrite Eh2 in H; injection H as <-
    | H : objs _ !! href hd2 = Some _ |- _ => rewrite Rh2, Eo2 in H; injection H as <-
    end.
    match goal with H : ret _ _ = Ok _ _ |- _ => injection H as <- end.
    rewrite So2, Lo2, take_take, Nat.min_id, take_ge by lia. done.
Qed.

(** In every program without a [clone] call, the handles still owned at
    its end refer to pairwise distinct foreign objects: [from_buffer],
    [new] and [with_maximum_capacity] create fresh objects, and
    [into_immutable] gives up the [CFMutableData] it turns into a
    [CFData]. *)
Theorem no_clone_no_sharing ps st vs :
  existsb is_clone ps = false -> run ps init = Ok st vs -> exclusive (handles st).
Proof.
  intros Hc H. exact (run_exclusive ps init st vs wf_init exclusive_init Hc H).
Qed.

(** ** Objects no [CFMutableData] owns are left alone *)

Lemma same_bytes_refl os r : same_bytes os os r.
Proof. intros o E. exists o. done. Qed.

Lemma same_bytes_trans a b c r : same_bytes a b r -> same_bytes b c r -> same_bytes a c r.
Proof.
  intros Hab Hbc o E. destruct (Hab o E) as (o1 & E1 & S1 & L1).
  destruct (Hbc o1 E1) as (o2 & E2 & S2 & L2). exists o2. split; [done|]. split; congruence.
Qed.

Lemma same_bytes_snoc os x r : same_bytes os (os ++ [x]) r.
Proof. intros o E. exists o. split; [|done]. apply lookup_app_l_Some. done. Qed.

Lemma same_bytes_insert os r r' o o' :
  os !! r' = Some o ->
  (r' = r -> storage o' = storage o /\ cf_len o' = cf_len o) ->
  same_bytes os (<[r':=o']> os) r.
Proof.
  intros E Hk o1 E1. destruct (decide (r' = r)) as [<-|Hne].
  - rewrite E in E1. injection E1 as <-. exists o'.
    rewrite list_lookup_insert_eq by eauto using lookup_lt_Some. destruct (Hk eq_refl). done.
  - exists o1. rewrite list_lookup_insert_ne by done. done.
Qed.

Lemma exec_same_bytes o st st' v r :
  no_mut_on (handles st) r -> exec o st = Ok st' v -> same_bytes (objs st) (objs st') r.
Proof.
  intros Hn H. destruct o; unfold_ops H; inv_ok; simpl.
  all: try apply same_bytes_refl.
  all: try apply same_bytes_snoc.
  all: eapply same_bytes_insert; [eassumption|]; simpl; intros Er; try done.
  all: exfalso; match goal with
    | Hh : handles _ !! _ = Some ?x, L : hstat ?x = Live,
      K : hkind ?x = KCFMutableData, E : href ?x = _ |- _ => exact (Hn _ _ Hh L K E)
    end.
Qed.

Lemma exec_no_mut_on o st st' v r :
  wf st -> is_clone o = false -> r < length (objs st) ->
  no_mut_on (handles st) r -> exec o st = Ok st' v -> no_mut_on (handles st') r.
Proof.
  intros Hwf Hc Hr Hn H. destruct o; simpl in Hc; try discriminate; unfold_ops H; inv_ok; simpl;
    repeat match goal with
    | H1 : handles ?s !! ?h = Some ?x, H2 : handles ?s !! ?h = Some ?y |- _ =>
        rewrite H1 in H2; injection H2 as <-
    | H : handles ?s !! ?h = Some _ |- context [handles ?s !! ?h] => rewrite H
    end.
  all: try done.
  all: intros i hd' Hi HL Hk.
  all: try (apply lookup_snoc_Some in Hi as [(_ & Hi)|(_ & <-)]; [eauto|simpl in *; try discriminate; lia]).
  all: try (apply list_lookup_insert_Some in Hi as [(_ & <- & _)|(_ & Hi)];
            [discriminate|eauto]).
Qed.

Lemma exec_objs_length o st st' v :
  exec o st = Ok st' v -> length (objs st) <= length (objs st').
Proof.
  intros H. destruct o; unfold_ops H; inv_ok; simpl;
    rewrite ?length_app, ?length_insert; simpl; lia.
Qed.

Lemma run_same_bytes ps st st' vs r :
  wf st -> existsb is_clone ps = false -> r < length (objs st) ->
  no_mut_on (handles st) r -> run ps st = Ok st' vs -> same_bytes (objs st) (objs st') r.
Proof.
  revert st st' vs. induction ps as [|p ps IH]; intros st st' vs Hwf Hc Hr Hn H;
    simpl in H, Hc.
  - unfold ret in H. injection H as <- _. apply same_bytes_refl.
  - apply orb_false_iff in Hc as [Hc1 Hc2]. inv_ok.
    match goal with E : exec p st = Ok ?s1 _ |- _ =>
      eapply same_bytes_trans; [exact (exec_same_bytes _ _ _ _ _ Hn E)|];
      eapply (IH s1); [exact (exec_wf _ _ _ _ Hwf E)|exact Hc2|
                       pose proof (exec_objs_length _ _ _ _ E); lia|
                       exact (exec_no_mut_on _ _ _ _ _ Hwf Hc1 Hr Hn E)|eassumption]
    end.
Qed.

(** In a program without [clone] calls, the [CFData] that [into_immutable]
    makes from a [CFMutableData] with bytes [bs] keeps the bytes [bs]: after
    any further sequence of operations without [clone] that returns,
    [bytes()] on it returns [bs]. No owned [CFMutableData] is left on the
    buffer that could change it. *)
Theorem into_immutable_frozen_without_clone ps st vs h bs st1 h' qs st2 ws :
  existsb is_clone ps = false -> run ps init = Ok st vs ->
  CFMutableData.bytes h st = Ok st bs ->
  CFMutableData.into_immutable h st = Ok st1 h' ->
  existsb is_clone qs = false -> run qs st1 = Ok st2 ws ->
  forall bs', CFData.bytes h' st2 = Ok st2 bs' -> bs' = bs.
Proof.
  intros Hc Hrun Hb Hi Hc' Hrun' bs' Hb'.
  pose proof (run_wf _ _ _ _ wf_init Hrun) as Hwf.
  pose proof (run_exclusive _ _ _ _ wf_init exclusive_init Hc Hrun) as Hx.
  assert (Ex : exec (OIntoImmutable h) st = Ok st1 (VHandle h'))
    by (unfold exec, bind at 1; rewrite Hi; reflexivity).
  pose proof (exec_wf _ _ _ _ Hwf Ex) as Hwf1.
  unfold CFMutableData.into_immutable, mem_forget, set_status, new_handle in Hi.
  inv_ok.
  match goal with
  | Hh : handles st !! h = Some ?x, L : hstat ?x = Live, K : hkind ?x = KCFMutableData |- _ =>
      rename x into hd; rename Hh into Hh0; rename L into HL; rename K into Hk
  end.
  simpl in *. rewrite Hh0 in *.
  destruct (live_has_object st h hd Hwf Hh0 HL) as (o & Ho & _ & _).
  destruct (mut_reads st h hd o Hwf Hh0 HL Hk Ho) as (_ & Hb0).
  rewrite Hb in Hb0. injection Hb0 as ->.
  set (hs1 := <[h:=mkHandle (hkind hd) (href hd) Forgotten]> (handles st) ++
              [mkHandle KCFData (href hd) Live]) in *.
  assert (Hn : no_mut_on hs1 (href hd)).
  { intros i hi Ei Li Ki. unfold hs1 in Ei.
    apply lookup_snoc_Some in Ei as [(_ & Ei)|(_ & <-)]; [|discriminate].
    apply list_lookup_insert_Some in Ei as [(_ & <- & _)|(Hne & Ei)]; [discriminate|].
    exact (Hx i h hi hd (not_eq_sym Hne) Ei Hh0 Li HL). }
  pose proof (run_same_bytes _ _ _ _ (href hd) Hwf1 Hc'
                ltac:(simpl; eauto using lookup_lt_Some) Hn Hrun') as Hs.
  destruct (Hs o Ho) as (o2 & Eo2 & So2 & Lo2).
  destruct (run_refs_kept _ _ _ _ Hrun'
              (length (<[h:=mkHandle (hkind hd) (href hd) Forgotten]> (handles st)))
              (mkHandle KCFData (href hd) Live)) as (hd2 & Eh2 & _ & Rh2).
  { simpl. unfold hs1. apply list_lookup_middle. done. }
  simpl in Rh2.
  unfold CFData.bytes, CFData.len, CF.CFDataGetBytePtr,
    CF.CFDataGetLength, slice_from_raw_parts in Hb'. inv_ok.
  repeat match goal with
  | H : CF.lookup_obj _ _ = Ok _ _ |- _ =>
      let Eo := fresh "Eo" in apply lookup_obj_ok in H as (_ & Eo & _)
  | H : handles st2 !! _ = Some ?x, H' : hstat ?x = Live |- _ =>
      rewrite Eh2 in H; injection H as <-
  | H : objs st2 !! href hd2 = Some _ |- _ => rewrite Rh2, Eo2 in H; injection H as <-
  end.
  match goal with H : ret _ _ = Ok _ _ |- _ => injection H as <- end.
  rewrite So2, Lo2. unfold CF.contents. done.
Qed.

(** ** Instances of the properties above *)

Lemma extend_from_slice_twice_witness :
  let S := final_state (run one_byte_prog init) in
  (let* _ := CFMutableData.extend_from_slice 0 [Byte.x02] in
   CFMutableData.extend_from_slice 0 [Byte.x03]) S =
  CFMutableData.extend_from_slice 0 ([Byte.x02] ++ [Byte.x03]) S.
Proof.
  intros S. apply (extend_from_slice_twice S 0 (mkHandle KCFMutableData 0 Live)).
  - exists one_byte_prog, (final_value (run one_byte_prog init) []). vm_compute. reflexivity.
  - vm_compute. reflexivity.
  - reflexivity.
  - reflexivity.
Defined.

Lemma extend_from_slice_empty_witness :
  let S := final_state (run bounded_prog init) in
  exists st', CFMutableData.extend_from_slice 0 [] S = Ok st' tt /\
    CFMutableData.len 0 st' = Ok st' 3 /\
    CFMutableData.bytes 0 st' = Ok st' [Byte.x01; Byte.x02; Byte.x03].
Proof.
  intros S. apply (extend_from_slice_empty S 0 (mkHandle KCFMutableData 0 Live)).
  - exists bounded_prog, (final_value (run bounded_prog init) []). vm_compute. reflexivity.
  - vm_compute. reflexivity.
  - reflexivity.
  - reflexivity.
  - vm_compute. reflexivity.
  - vm_compute. reflexivity.
Defined.

Lemma set_len_truncate_total_witness :
  let S := final_state (run bounded_prog init) in
  exists st', CFMutableData.set_len 0 1 S = Ok st' tt /\
    CFMutableData.len 0 st' = Ok st' 1 /\
    CFMutableData.bytes 0 st' = Ok st' (take 1 [Byte.x01; Byte.x02; Byte.x03]).
Proof.
  intros S. apply (set_len_truncate_total S 0 (mkHandle KCFMutableData 0 Live)).
  - exists bounded_prog, (final_value (run bounded_prog init) []). vm_compute. reflexivity.
  - vm_compute. reflexivity.
  - reflexivity.
  - reflexivity.
  - vm_compute. reflexivity.
  - simpl. lia.
  - unfold isize_MAX. lia.
Defined.

Lemma extend_then_set_len_restores_witness :
  let S := final_state (run one_byte_prog init) in
  exists st1 st2, CFMutableData.extend_from_slice 0 [Byte.x02; Byte.x03] S = Ok st1 tt /\
    CFMutableData.set_len 0 1 st1 = Ok st2 tt /\
    CFMutableData.len 0 st2 = Ok st2 1 /\ CFMutableData.bytes 0 st2 = Ok st2 [Byte.x01].
Proof.
  intros S. apply (extend_then_set_len_restores S 0 (mkHandle KCFMutableData 0 Live)).
  - exists one_byte_prog, (final_value (run one_byte_prog init) []). vm_compute. reflexivity.
  - vm_compute. reflexivity.
  - reflexivity.
  - reflexivity.
  - vm_compute. reflexivity.
  - vm_compute. reflexivity.
  - intros o Ho. vm_compute in Ho. injection Ho as <-. reflexivity.
  - unfold isize_MAX. lia.
Defined.

Lemma set_len_truncate_then_grow_witness :
  let S := final_state (run three_bytes_prog init) in
  exists st1 st2, CFMutableData.set_len 0 1 S = Ok st1 tt /\
    CFMutableData.set_len 0 3 st1 = Ok st2 tt /\
    CFMutableData.len 0 st2 = Ok st2 3 /\
    CFMutableData.bytes 0 st2 =
      Ok st2 (take 1 [Byte.x01; Byte.x02; Byte.x03] ++ repeat Byte.x00 (3 - 1)).
Proof.
  intros S. apply (set_len_truncate_then_grow S 0 (mkHandle KCFMutableData 0 Live)).
  - exists three_bytes_prog, (final_value (run three_bytes_prog init) []).
    vm_compute. reflexivity.
  - vm_compute. reflexivity.
  - reflexivity.
  - reflexivity.
  - vm_compute. reflexivity.
  - simpl. lia.
  - lia.
  - intros o Ho. vm_compute in Ho. injection Ho as <-. reflexivity.
  - unfold isize_MAX. lia.
Defined.

Lemma mutators_frame_witness :
  let S := final_state (run three_bytes_prog init) in
  exists o, objs S !! 0 = Some o /\
    (forall b st' u, CFMutableData.extend_from_slice 0 b S = Ok st' u ->
       frame_only S st' 0 o) /\
    (forall n st' u, CFMutableData.set_len 0 n S = Ok st' u -> frame_only S st' 0 o).
Proof.
  intros S. apply (mutators_frame S 0 (mkHandle KCFMutableData 0 Live)).
  - exists three_bytes_prog, (final_value (run three_bytes_prog init) []).
    vm_compute. reflexivity.
  - vm_compute. reflexivity.
  - reflexivity.
  - reflexivity.
Defined.

Lemma with_maximum_capacity_len_bound_witness :
  let S1 := final_state (CFMutableData.with_maximum_capacity 2 init) in
  let S2 := final_state (run bounded_later S1) in
  CFMutableData.with_maximum_capacity 2 init = Ok S1 0 /\
  run bounded_later S1 = Ok S2 (final_value (run bounded_later S1) []) /\
  CFMutableData.len 0 S2 = Ok S2 2 /\ 2 <= 2.
Proof.
  intros S1 S2.
  assert (E1 : CFMutableData.with_maximum_capacity 2 init = Ok S1 0) by reflexivity.
  assert (E2 : run bounded_later S1 = Ok S2 (final_value (run bounded_later S1) []))
    by (vm_compute; reflexivity).
  assert (E3 : CFMutableData.len 0 S2 = Ok S2 2) by (vm_compute; reflexivity).
  split; [exact E1|]. split; [exact E2|]. split; [exact E3|].
  exact (with_maximum_capacity_len_bound init 2 0 S1 bounded_later S2 _ 2
           (ex_intro _ [] (ex_intro _ [] eq_refl)) ltac:(lia) E1 E2 E3).
Defined.

Lemma from_buffer_never_changes_witness :
  let S1 := final_state (CFData.from_buffer [Byte.x01; Byte.x02] init) in
  let S2 := final_state (run frozen_later S1) in
  (forall m, CFData.len 0 S2 = Ok S2 m -> m = length [Byte.x01; Byte.x02]) /\
  (forall bs, CFData.bytes 0 S2 = Ok S2 bs -> bs = [Byte.x01; Byte.x02]).
Proof.
  intros S1 S2.
  apply (from_buffer_never_changes init [Byte.x01; Byte.x02] 0 S1 frozen_later S2
           (final_value (run frozen_later S1) [])).
  - reflexivity.
  - vm_compute. reflexivity.
Defined.

Lemma no_clone_no_sharing_witness :
  exclusive (handles (final_state (run no_clone_prog init))).
Proof.
  apply (no_clone_no_sharing no_clone_prog _ (final_value (run no_clone_prog init) [])).
  - reflexivity.
  - vm_compute. reflexivity.
Defined.

Lemma into_immutable_frozen_without_clone_witness :
  let S := final_state (run one_byte_prog init) in
  let S1 := final_state (CFMutableData.into_immutable 0 S) in
  let S2 := final_state (run after_conversion S1) in
  CFData.bytes 1 S2 = Ok S2 [Byte.x01] /\ [Byte.x01] = [Byte.x01].
Proof.
  intros S S1 S2. split.
  - vm_compute. reflexivity.
  - apply (into_immutable_frozen_without_clone one_byte_prog S
             (final_value (run one_byte_prog init) []) 0 [Byte.x01] S1 1 after_conversion S2
             (final_value (run after_conversion S1) [])).
    + reflexivity.
    + vm_compute. reflexivity.
    + vm_compute. reflexivity.
    + vm_compute. reflexivity.
    + reflexivity.
    + vm_compute. reflexivity.
    + vm_compute. reflexivity.
Defined.
